(** * RayCastRawLidar: a shallow embedding of the raw ray-cast LiDAR sensor

    The development follows
    [Unreal/CarlaUE4/Plugins/Carla/Source/Carla/Sensor/RayCastRawLidar.cpp].

    - [float] is kept abstract behind the class [FloatOps]; the functions of
      the sensor are written once over it, and the properties of the sensor
      are proved for every interpretation of the float operations.  The
      interpretation the program runs with, IEEE 754 binary32 with its
      rounding, is [Binary32]; the runs of the definitions and the
      properties that depend on rounding are stated over it.
    - [uint32] values that the code only counts with (channel indices,
      point indices, sizes) are natural numbers; the one place where a
      [float] is converted to [uint32] keeps the range test.
    - [check(...)] and [DEBUG_ASSERT(...)] abort ([CheckFailed]); undefined
      behaviour of C++ (null dereference, out-of-range conversion or index)
      is [Undefined]. *)

From Stdlib Require Import String.
From Stdlib Require Import List Arith ZArith Lia Bool Permutation.
From Stdlib Require Import SpecFloat.
Import ListNotations.

Set Implicit Arguments.

(** ** Outcomes of fallible code *)

Inductive Outcome (A : Type) : Type :=
| Ok (a : A)
| CheckFailed (what : string)
| Undefined.

Arguments Ok {A} a.
Arguments CheckFailed {A} what.
Arguments Undefined {A}.

Definition bind {A B : Type} (m : Outcome A) (k : A -> Outcome B) : Outcome B :=
  match m with
  | Ok a => k a
  | CheckFailed w => CheckFailed w
  | Undefined => Undefined
  end.

Notation "x <- m ;; k" := (bind m (fun x => k))
  (at level 61, m at next level, right associativity).

Definition check {A : Type} (cond : bool) (what : string) (k : Outcome A) : Outcome A :=
  if cond then k else CheckFailed what.

Definition option_list {A : Type} (o : option A) : list A :=
  match o with Some a => [a] | None => [] end.

(** ** The arithmetic of [float] *)

Class FloatOps (F : Type) : Type := {
  of_Z : Z -> F;                 (* literals such as 360.0f, and integer-to-float casts *)
  fadd : F -> F -> F;
  fsub : F -> F -> F;
  fmul : F -> F -> F;
  fdiv : F -> F -> F;
  fneg : F -> F
}.

(** [static_cast<float>(i)] and [float(n)] for an unsigned [i], [n]. *)
Definition of_uint32 {F : Type} `{FloatOps F} (n : nat) : F := of_Z (Z.of_nat n).

(** The library functions on [float] that the scan scheduler calls:
    [std::fmod], [FMath::RoundHalfFromZero], the implicit conversion to
    [uint32] ([None] where C++ leaves it undefined) and
    [carla::geom::Math::ToDegrees] / [ToRadians]. *)
Class FloatMath (F : Type) `{FloatOps F} : Type := {
  fmod : F -> F -> F;
  RoundHalfFromZero : F -> F;
  to_uint32 : F -> option nat;
  ToDegrees : F -> F;
  ToRadians : F -> F
}.

Arguments FloatMath F {_}.

(** ** Data model *)

Section Model.

Context {F : Type} `{FM : FloatMath F}.

Record FVector : Type := MkVector { X : F; Y : F; Z' : F }.

Definition vadd (a b : FVector) : FVector :=
  MkVector (fadd (X a) (X b)) (fadd (Y a) (Y b)) (fadd (Z' a) (Z' b)).
Definition vsub (a b : FVector) : FVector :=
  MkVector (fsub (X a) (X b)) (fsub (Y a) (Y b)) (fsub (Z' a) (Z' b)).
Definition vneg (a : FVector) : FVector :=
  MkVector (fneg (X a)) (fneg (Y a)) (fneg (Z' a)).
Definition vscale (k : F) (a : FVector) : FVector :=
  MkVector (fmul k (X a)) (fmul k (Y a)) (fmul k (Z' a)).
(** [FVector::DotProduct]. *)
Definition DotProduct (a b : FVector) : F :=
  fadd (fadd (fmul (X a) (X b)) (fmul (Y a) (Y b))) (fmul (Z' a) (Z' b)).

(** The fields of [FLidarDescription] that the file reads; its declaration
    is not part of the source file.  The points per second enter the
    computation as a [float]. *)
Record FLidarDescription : Type := {
  Channels : nat;
  Range : F;
  PointsPerSecond : F;
  RotationFrequency : F;
  UpperFovLimit : F;
  LowerFovLimit : F
}.

(** Opaque handle of a scene object ([AActor*]). *)
Definition AActor : Type := nat.

(** [ECityObjectLabel], by the value [static_cast<uint32_t>] gives it. *)
Definition ECityObjectLabel : Type := nat.
(** Modelled from the spec: [ECityObjectLabel::None] is the sentinel tag
    NONE; its declaration is not part of the source file. *)
Definition LabelNone : ECityObjectLabel := 0%nat.

Record FActorInfo : Type := {
  UId : nat;                               (* Description.UId *)
  SemanticTags : list ECityObjectLabel     (* TSet<ECityObjectLabel>, in iteration order *)
}.

(** [FActorView]: validity flag and the (nullable) pointer to the info. *)
Record FActorView : Type := {
  IsValid : bool;
  GetActorInfo : option FActorInfo
}.

Record FHitResult : Type := {
  bBlockingHit : bool;
  ImpactPoint : FVector;
  ImpactNormal : FVector;
  Actor : option AActor                    (* HitInfo.Actor.Get(), nullptr = None *)
}.

Record FRawDetection : Type := {
  point : FVector;
  cos_inc_angle : F;
  object_idx : nat;
  object_tag : nat
}.

(** Modelled from the spec: the Point Buffer ([FLidarRawData], declared in
    LibCarla and not part of the source file).  It keeps the sweep angle,
    the per-channel point counts and the detections in writing order. *)
Record FLidarRawData : Type := {
  HorizontalAngle : F;
  PointCounts : list nat;
  SerPoints : list FRawDetection
}.

(** Modelled from the spec: a fresh buffer for [channels] channels starts
    with sweep angle 0 and no points. *)
Definition NewLidarRawData (channels : nat) : FLidarRawData :=
  {| HorizontalAngle := of_Z 0; PointCounts := repeat 0%nat channels; SerPoints := [] |}.

Definition GetHorizontalAngle (d : FLidarRawData) : F := HorizontalAngle d.

Definition SetHorizontalAngle (a : F) (d : FLidarRawData) : FLidarRawData :=
  {| HorizontalAngle := a; PointCounts := PointCounts d; SerPoints := SerPoints d |}.

(** Modelled from the spec: [begin_step] clears the stored detections and
    records the expected count of each channel. *)
Definition ResetSerPoints (points_per_channel : list nat) (d : FLidarRawData) : FLidarRawData :=
  {| HorizontalAngle := HorizontalAngle d;
     PointCounts := points_per_channel;
     SerPoints := [] |}.

(** Modelled from the spec: [append] adds one detection at the end. *)
Definition WritePointSync (det : FRawDetection) (d : FLidarRawData) : FLidarRawData :=
  {| HorizontalAngle := HorizontalAngle d;
     PointCounts := PointCounts d;
     SerPoints := SerPoints d ++ [det] |}.

(** The sensor object: the fields of [ARayCastRawLidar] the file touches. *)
Record ARayCastRawLidar : Type := {
  Description : FLidarDescription;
  LaserAngles : list F;
  LidarRawData : FLidarRawData;
  RecordedHits : list (list FHitResult)
}.

(** ** Beam array: [CreateLasers] and [Set] *)

Definition DeltaAngleOf (d : FLidarDescription) : F :=
  let NumberOfLasers := Channels d in
  if (NumberOfLasers =? 1)%nat then of_Z 0
  else fdiv (fsub (UpperFovLimit d) (LowerFovLimit d))
            (of_uint32 (NumberOfLasers - 1)).

(** The body of the [for] loop of [CreateLasers]: [n] iterations are left,
    the loop variable is [i]. *)
Fixpoint EmplaceAngles (Upper DeltaAngle : F) (n i : nat) (angles : list F) : list F :=
  match n with
  | O => angles
  | S n' =>
      let VerticalAngle := fsub Upper (fmul (of_uint32 i) DeltaAngle) in
      EmplaceAngles Upper DeltaAngle n' (S i) (angles ++ [VerticalAngle])
  end.

Definition CreateLasers (s : ARayCastRawLidar) : Outcome ARayCastRawLidar :=
  let NumberOfLasers := Channels (Description s) in
  check (0 <? NumberOfLasers)%nat "NumberOfLasers > 0u" (
    let DeltaAngle := DeltaAngleOf (Description s) in
    Ok {| Description := Description s;
          LaserAngles :=
            EmplaceAngles (UpperFovLimit (Description s)) DeltaAngle NumberOfLasers 0 [];
          LidarRawData := LidarRawData s;
          RecordedHits := RecordedHits s |}).

(** [Set(const FLidarDescription &)]. *)
Definition Set_ (LidarDescription : FLidarDescription) (s : ARayCastRawLidar)
  : Outcome ARayCastRawLidar :=
  CreateLasers {| Description := LidarDescription;
                  LaserAngles := LaserAngles s;
                  LidarRawData := NewLidarRawData (Channels LidarDescription);
                  RecordedHits := RecordedHits s |}.


(** ** Collaborators

    The engine types [FTransform] and [FRotator] stay opaque; [Engine]
    gathers the engine functions the sensor calls, the world it traces
    against, the pre-filter hook and the actor registry of the episode. *)

Variables FTransform FRotator : Type.

Record Engine : Type := {
  GetTransform : FTransform;                                  (* pose of the sensor *)
  GetLocation : FTransform -> FVector;
  Rotator : FTransform -> FRotator;
  Inverse : FTransform -> FTransform;
  TransformPosition : FTransform -> FVector -> FVector;
  MakeRotator : F -> F -> F -> FRotator;                      (* FRotator(Pitch, Yaw, Roll) *)
  ComposeRotators : FRotator -> FRotator -> FRotator;
  GetForwardVector : FRotator -> FVector;
  GetSafeNormal : FVector -> FVector;
  LineTraceSingleByChannel : FVector -> FVector -> FHitResult;
  PreprocessRay : F -> F -> bool;
  RegistryFind : AActor -> FActorView
}.

(** What a step does to the outside: a warning in the log, a ray traced
    by [ShootLaser] for a (channel, point index) pair, the point buffer
    handed to the data stream. *)
Inductive Event : Type :=
| LogWarning (msg : string)
| RayCast (idxChannel idxPtsOneLaser : nat) (VertAngle HorizAngle : F)
| Send (data : FLidarRawData).

(** ** Detection processor *)

(** [p->...] on a nullable pointer. *)
Definition deref {A : Type} (p : option A) : Outcome A :=
  match p with
  | Some a => Ok a
  | None => Undefined
  end.

Definition with_object_idx (i : nat) (d : FRawDetection) : FRawDetection :=
  {| point := point d; cos_inc_angle := cos_inc_angle d;
     object_idx := i; object_tag := object_tag d |}.

Definition with_object_tag (t : nat) (d : FRawDetection) : FRawDetection :=
  {| point := point d; cos_inc_angle := cos_inc_angle d;
     object_idx := object_idx d; object_tag := t |}.

Definition ComputeRawDetection (E : Engine) (HitInfo : FHitResult) (SensorTransf : FTransform)
  : Outcome FRawDetection :=
  let HitPoint := ImpactPoint HitInfo in
  let VecInc := vneg (GetSafeNormal E (vsub HitPoint (GetLocation E SensorTransf))) in
  let Detection :=
    {| point := TransformPosition E (Inverse E SensorTransf) HitPoint;
       cos_inc_angle := DotProduct VecInc (ImpactNormal HitInfo);
       object_idx := 0;
       object_tag := LabelNone |} in
  match Actor HitInfo with
  | Some actor =>
      let view := RegistryFind E actor in
      if IsValid view then
        let ActorInfo := GetActorInfo view in
        info <- deref ActorInfo ;;
        let Detection := with_object_idx (UId info) Detection in
        match ActorInfo with
        | Some info' =>
            let labels := SemanticTags info' in
            if (length labels =? 1)%nat
            then Ok (with_object_tag (hd LabelNone labels) Detection)
            else Ok Detection
        | None => Ok Detection
        end
      else Ok Detection
  | None => Ok Detection
  end.

(** ** Ray caster *)

Definition ShootLaser (E : Engine) (s : ARayCastRawLidar) (VerticalAngle HorizontalAngle : F)
  : option FHitResult :=
  let ActorTransf := GetTransform E in
  let LidarBodyLoc := GetLocation E ActorTransf in
  let LidarBodyRot := Rotator E ActorTransf in
  let LaserRot := MakeRotator E VerticalAngle HorizontalAngle (of_Z 0) in
  let ResultRot := ComposeRotators E LaserRot LidarBodyRot in
  let EndTrace :=
    vadd (vscale (Range (Description s)) (GetForwardVector E ResultRot)) LidarBodyLoc in
  let HitInfo := LineTraceSingleByChannel E LidarBodyLoc EndTrace in
  if bBlockingHit HitInfo then Some HitInfo else None.

(** [resize] to one entry per channel, then [clear] every entry;
    [reserve] changes no content. *)
Definition ResetRecordedHits (Channels MaxPointsPerChannel : nat) (s : ARayCastRawLidar)
  : ARayCastRawLidar :=
  {| Description := Description s;
     LaserAngles := LaserAngles s;
     LidarRawData := LidarRawData s;
     RecordedHits := repeat [] Channels |}.

(** [v[channel].emplace_back(x)]; indexing past the end is undefined. *)
Fixpoint emplace_back_at {A : Type} (channel : nat) (x : A) (v : list (list A))
  : option (list (list A)) :=
  match v, channel with
  | [], _ => None
  | row :: rest, O => Some ((row ++ [x]) :: rest)
  | row :: rest, S c =>
      match emplace_back_at c x rest with
      | Some rest' => Some (row :: rest')
      | None => None
      end
  end.

(** Modelled from the spec: the channel count of the sensor is the
    configured number of channels.  [GetChannelCount] is declared outside
    the source file. *)
Definition GetChannelCount (s : ARayCastRawLidar) : nat := Channels (Description s).

(** The assertion is kept, as the [check]s are: a channel index that is
    not below the channel count aborts before [RecordedHits] is indexed. *)
Definition WritePointAsync (channel : nat) (detection : FHitResult) (s : ARayCastRawLidar)
  : Outcome ARayCastRawLidar :=
  check (channel <? GetChannelCount s)%nat "GetChannelCount() > channel" (
    match emplace_back_at channel detection (RecordedHits s) with
    | Some hits =>
        Ok {| Description := Description s;
              LaserAngles := LaserAngles s;
              LidarRawData := LidarRawData s;
              RecordedHits := hits |}
    | None => Undefined
    end).

(** [ParallelFor(Num, Body)], run in index order; the state and the trace
    of events are threaded through the bodies.  In such a run the lock
    around [WritePointAsync] has nothing to exclude; the interleaved runs
    are the subject of [Concurrent] below. *)
Fixpoint ParallelForFrom {St : Type} (Num first : nat) (Body : nat -> St -> Outcome St)
    (st : St) : Outcome St :=
  match Num with
  | O => Ok st
  | S Num' => st' <- Body first st ;; ParallelForFrom Num' (S first) Body st'
  end.

Definition ParallelFor {St : Type} (Num : nat) (Body : nat -> St -> Outcome St) (st : St)
  : Outcome St :=
  ParallelForFrom Num 0 Body st.

(** The inner lambda of [SimulateLidar]: one ray.  [LaserAngles[idxChannel]]
    is in range after the [check] of [SimulateLidar]. *)
Definition PointTask (E : Engine) (CurrentHorizontalAngle AngleDistanceOfLaserMeasure : F)
    (idxChannel idxPtsOneLaser : nat) (st : ARayCastRawLidar * list Event)
  : Outcome (ARayCastRawLidar * list Event) :=
  let (s, trace) := st in
  let VertAngle := nth idxChannel (LaserAngles s) (of_Z 0) in
  let HorizAngle :=
    fadd CurrentHorizontalAngle (fmul AngleDistanceOfLaserMeasure (of_uint32 idxPtsOneLaser)) in
  let PreprocessResult := PreprocessRay E VertAngle HorizAngle in
  if PreprocessResult then
    let trace' := trace ++ [RayCast idxChannel idxPtsOneLaser VertAngle HorizAngle] in
    match ShootLaser E s VertAngle HorizAngle with
    | Some HitResult =>
        s' <- WritePointAsync idxChannel HitResult s ;; Ok (s', trace')
    | None => Ok (s, trace')
    end
  else Ok st.

(** The two angles of the ray of one (channel, point index) pair, and
    what that ray contributes to the channel: the blocking hit, unless the
    pre-filter vetoes the ray or the trace hits nothing. *)
Definition RayAngles (s : ARayCastRawLidar)
    (CurrentHorizontalAngle AngleDistanceOfLaserMeasure : F)
    (idxChannel idxPtsOneLaser : nat) : F * F :=
  (nth idxChannel (LaserAngles s) (of_Z 0),
   fadd CurrentHorizontalAngle (fmul AngleDistanceOfLaserMeasure (of_uint32 idxPtsOneLaser))).

Definition RayOutcome (E : Engine) (s : ARayCastRawLidar)
    (CurrentHorizontalAngle AngleDistanceOfLaserMeasure : F)
    (idxChannel idxPtsOneLaser : nat) : option FHitResult :=
  let (VertAngle, HorizAngle) :=
    RayAngles s CurrentHorizontalAngle AngleDistanceOfLaserMeasure idxChannel idxPtsOneLaser in
  if PreprocessRay E VertAngle HorizAngle
  then ShootLaser E s VertAngle HorizAngle
  else None.

(** The outer lambda: one channel. *)
Definition ChannelTask (E : Engine) (CurrentHorizontalAngle AngleDistanceOfLaserMeasure : F)
    (PointsToScanWithOneLaser idxChannel : nat) (st : ARayCastRawLidar * list Event)
  : Outcome (ARayCastRawLidar * list Event) :=
  ParallelFor PointsToScanWithOneLaser
    (PointTask E CurrentHorizontalAngle AngleDistanceOfLaserMeasure idxChannel) st.

(** ** Filling the point buffer *)

Fixpoint SaveChannel (E : Engine) (SensorTransform : FTransform) (hits : list FHitResult)
    (data : FLidarRawData) : Outcome FLidarRawData :=
  match hits with
  | [] => Ok data
  | hit :: rest =>
      detection <- ComputeRawDetection E hit SensorTransform ;;
      SaveChannel E SensorTransform rest (WritePointSync detection data)
  end.

(** [RecordedHits[idxChannel]]; indexing past the end is undefined. *)
Definition at_channel (s : ARayCastRawLidar) (idxChannel : nat) : Outcome (list FHitResult) :=
  deref (nth_error (RecordedHits s) idxChannel).

Fixpoint CountChannels (s : ARayCastRawLidar) (n first : nat) : Outcome (list nat) :=
  match n with
  | O => Ok []
  | S n' =>
      hits <- at_channel s first ;;
      rest <- CountChannels s n' (S first) ;;
      Ok (length hits :: rest)
  end.

Fixpoint SaveChannels (E : Engine) (SensorTransform : FTransform) (s : ARayCastRawLidar)
    (n first : nat) (data : FLidarRawData) : Outcome FLidarRawData :=
  match n with
  | O => Ok data
  | S n' =>
      hits <- at_channel s first ;;
      data' <- SaveChannel E SensorTransform hits data ;;
      SaveChannels E SensorTransform s n' (S first) data'
  end.

Definition ComputeAndSaveDetections (E : Engine) (SensorTransform : FTransform)
    (s : ARayCastRawLidar) : Outcome ARayCastRawLidar :=
  let n := Channels (Description s) in
  PointsPerChannel <- CountChannels s n 0 ;;
  data <- SaveChannels E SensorTransform s n 0
            (ResetSerPoints PointsPerChannel (LidarRawData s)) ;;
  Ok {| Description := Description s;
        LaserAngles := LaserAngles s;
        LidarRawData := data;
        RecordedHits := RecordedHits s |}.

(** ** Scan scheduler: [SimulateLidar] and [Tick] *)

(** The per-channel ray budget of a step; [None] where the conversion of
    the rounded quotient to [uint32] is undefined: the quotient by
    [float(0)] is infinite or not a number, and so out of range. *)
Definition PointsToScanWithOneLaser (d : FLidarDescription) (DeltaTime : F) : option nat :=
  let ChannelCount := Channels d in
  if (ChannelCount =? 0)%nat then None
  else to_uint32 (RoundHalfFromZero
                    (fdiv (fmul (PointsPerSecond d) DeltaTime) (of_uint32 ChannelCount))).

Definition no_points_warning : string :=
  "no points requested this frame, try increasing the number of points per second.".

Definition SimulateLidar (E : Engine) (DeltaTime : F) (s : ARayCastRawLidar)
  : Outcome (ARayCastRawLidar * list Event) :=
  let ChannelCount := Channels (Description s) in
  match PointsToScanWithOneLaser (Description s) DeltaTime with
  | None => Undefined
  | Some Points =>
      if (Points <=? 0)%nat then Ok (s, [LogWarning no_points_warning])
      else
        check (ChannelCount =? length (LaserAngles s))%nat "ChannelCount == LaserAngles.Num()" (
          let CurrentHorizontalAngle := ToDegrees (GetHorizontalAngle (LidarRawData s)) in
          let AngleDistanceOfTick :=
            fmul (fmul (RotationFrequency (Description s)) (of_Z 360)) DeltaTime in
          let AngleDistanceOfLaserMeasure := fdiv AngleDistanceOfTick (of_uint32 Points) in
          let s1 := ResetRecordedHits ChannelCount Points s in
          cast <- ParallelFor ChannelCount
                    (ChannelTask E CurrentHorizontalAngle AngleDistanceOfLaserMeasure Points)
                    (s1, []) ;;
          let (s2, trace) := cast : ARayCastRawLidar * list Event in
          let ActorTransf := GetTransform E in
          s3 <- ComputeAndSaveDetections E ActorTransf s2 ;;
          let HorizontalAngle :=
            ToRadians (fmod (fadd CurrentHorizontalAngle AngleDistanceOfTick) (of_Z 360)) in
          Ok ({| Description := Description s3;
                 LaserAngles := LaserAngles s3;
                 LidarRawData := SetHorizontalAngle HorizontalAngle (LidarRawData s3);
                 RecordedHits := RecordedHits s3 |}, trace))
  end.

(** [Tick]: simulate, then hand the point buffer to the data stream. *)
Definition Tick (E : Engine) (DeltaTime : F) (s : ARayCastRawLidar)
  : Outcome (ARayCastRawLidar * list Event) :=
  r <- SimulateLidar E DeltaTime s ;;
  let (s', trace) := r : ARayCastRawLidar * list Event in
  Ok (s', trace ++ [Send (LidarRawData s')]).

(** The host calling [Tick] repeatedly: one engine state and one
    [DeltaTime] per tick. *)
Fixpoint Ticks (steps : list (Engine * F)) (s : ARayCastRawLidar)
  : Outcome (ARayCastRawLidar * list Event) :=
  match steps with
  | [] => Ok (s, [])
  | (E, DeltaTime) :: rest =>
      r <- Tick E DeltaTime s ;;
      let (s', trace) := r : ARayCastRawLidar * list Event in
      r' <- Ticks rest s' ;;
      let (s'', trace') := r' : ARayCastRawLidar * list Event in
      Ok (s'', trace ++ trace')
  end.

(** ** Reference description of the casting phase

    What a step is expected to leave behind, written without the loops:
    used to state what [SimulateLidar] computes. *)

Definition with_hits (s : ARayCastRawLidar) (hits : list (list FHitResult))
  : ARayCastRawLidar :=
  {| Description := Description s;
     LaserAngles := LaserAngles s;
     LidarRawData := LidarRawData s;
     RecordedHits := hits |}.

(** The event of the ray of one pair: none when the pre-filter vetoes it. *)
Definition RayEvents (E : Engine) (s : ARayCastRawLidar)
    (CurrentHorizontalAngle AngleDistanceOfLaserMeasure : F)
    (idxChannel idxPtsOneLaser : nat) : list Event :=
  let (VertAngle, HorizAngle) :=
    RayAngles s CurrentHorizontalAngle AngleDistanceOfLaserMeasure idxChannel idxPtsOneLaser in
  if PreprocessRay E VertAngle HorizAngle
  then [RayCast idxChannel idxPtsOneLaser VertAngle HorizAngle]
  else [].

Definition ExpectedHits (E : Engine) (s : ARayCastRawLidar)
    (CurrentHorizontalAngle AngleDistanceOfLaserMeasure : F)
    (Points idxChannel : nat) : list FHitResult :=
  flat_map (fun p => option_list
              (RayOutcome E s CurrentHorizontalAngle AngleDistanceOfLaserMeasure idxChannel p))
           (seq 0 Points).

Definition ExpectedRays (E : Engine) (s : ARayCastRawLidar)
    (CurrentHorizontalAngle AngleDistanceOfLaserMeasure : F)
    (Points idxChannel : nat) : list Event :=
  flat_map (RayEvents E s CurrentHorizontalAngle AngleDistanceOfLaserMeasure idxChannel)
           (seq 0 Points).

(** [dets] are the detections computed, in order, from [hits]. *)
Definition Detections (E : Engine) (SensorTransform : FTransform)
    (hits : list FHitResult) (dets : list FRawDetection) : Prop :=
  Forall2 (fun hit det => ComputeRawDetection E hit SensorTransform = Ok det) hits dets.

(** ** Well-formedness *)

(** Every valid view of the registry carries its actor info. *)
Definition registry_ok (E : Engine) : Prop :=
  forall a, IsValid (RegistryFind E a) = true -> GetActorInfo (RegistryFind E a) <> None.

(** What [Set] establishes and every step keeps. *)
Definition configured (s : ARayCastRawLidar) : Prop :=
  (0 < Channels (Description s))%nat /\
  length (LaserAngles s) = Channels (Description s).

End Model.

Arguments Engine F FTransform FRotator : clear implicits.
Arguments FVector F : clear implicits.
Arguments FHitResult F : clear implicits.
Arguments FRawDetection F : clear implicits.
Arguments FLidarRawData F : clear implicits.
Arguments FLidarDescription F : clear implicits.
Arguments ARayCastRawLidar F : clear implicits.
Arguments Event F : clear implicits.

(** ** The arithmetic of the program: IEEE 754 binary32

    The values of [float] and its correctly rounded operations (to nearest,
    ties to even) are those of [SpecFloat] of the standard library, at
    precision 24 and exponent bound 128. *)

Module Binary32.

Definition prec : Z := 24.
Definition emax : Z := 128.

Definition float32 : Type := spec_float.

(** [m * 2 ^ e], rounded. *)
Definition of_scaled (m e : Z) : float32 := binary_normalize prec emax m e false.

(** An integer, or an integer literal, converted to [float]. *)
Definition of_int (z : Z) : float32 := of_scaled z 0.

(** The quotient of two integers, rounded once: a decimal literal. *)
Definition decimal (n d : Z) : float32 := SFdiv prec emax (of_int n) (of_int d).


Definition sign_bit (x : float32) : bool :=
  match x with
  | S754_zero s | S754_infinity s | S754_finite s _ _ => s
  | S754_nan => false
  end.

(** [std::fmod]: [x - n * y] for the integer [n] that is [x / y] rounded
    toward zero.  The result is exact; it has the sign of [x]. *)
Definition fmodf (x y : float32) : float32 :=
  match x, y with
  | S754_nan, _ | _, S754_nan => S754_nan
  | S754_infinity _, _ => S754_nan
  | _, S754_zero _ => S754_nan
  | S754_zero _, _ => x
  | S754_finite _ _ _, S754_infinity _ => x
  | S754_finite sx mx ex, S754_finite _ my ey =>
      let e := Z.min ex ey in
      let nx := Zpos (fst (shl_align mx ex e)) in
      let ny := Zpos (fst (shl_align my ey e)) in
      binary_normalize prec emax (cond_Zopp sx (Z.rem nx ny)) e sx
  end.

(** The largest integer not above a finite [x]. *)
Definition floor_Z (x : float32) : option Z :=
  match x with
  | S754_zero _ => Some 0%Z
  | S754_finite s m e =>
      let z := cond_Zopp s (Zpos m) in
      Some (match e with
            | Zneg p => Z.div z (2 ^ Zpos p)
            | _ => z * 2 ^ e
            end)%Z
  | S754_infinity _ | S754_nan => None
  end.

(** [floorf] and [ceilf], which [FMath::FloorToFloat] and
    [FMath::CeilToFloat] call. *)
Definition floorf (x : float32) : float32 :=
  match floor_Z x with
  | Some z => binary_normalize prec emax z 0 (sign_bit x)
  | None => x
  end.

Definition ceilf (x : float32) : float32 := SFopp (floorf (SFopp x)).

(** [FMath::RoundHalfFromZero] of the engine:
    [(F < 0.0f) ? CeilToFloat(F - 0.5f) : FloorToFloat(F + 0.5f)]. *)
Definition RoundHalfFromZerof (x : float32) : float32 :=
  if SFltb x (of_int 0)
  then ceilf (SFsub prec emax x (of_scaled 1 (-1)))
  else floorf (SFadd prec emax x (of_scaled 1 (-1))).

(** Conversion of a [float] to [uint32]: the fraction is dropped; the
    result is undefined when the integer does not fit, or when there is
    none. *)
Definition to_uint32f (x : float32) : option nat :=
  match x with
  | S754_zero _ => Some 0%nat
  | S754_finite s m e =>
      let z := cond_Zopp s (match e with
                            | Zneg p => Z.div (Zpos m) (2 ^ Zpos p)
                            | _ => Zpos m * 2 ^ e
                            end)%Z in
      if ((0 <=? z) && (z <? 2 ^ 32))%Z then Some (Z.to_nat z) else None
  | S754_infinity _ | S754_nan => None
  end.

(** [carla::geom::Math::Pi<float>()]: the [float] nearest to pi. *)
Definition Pi : float32 := S754_finite false 13176795 (-22).

#[global] Instance Float32Ops : FloatOps float32 := {
  of_Z := of_int;
  fadd := SFadd prec emax;
  fsub := SFsub prec emax;
  fmul := SFmul prec emax;
  fdiv := SFdiv prec emax;
  fneg := SFopp
}.

(** [carla::geom::Math::ToDegrees] and [ToRadians] are not part of the
    source file: they multiply by [180 / Pi<float>()] and by
    [Pi<float>() / 180]. *)
#[global] Instance Float32Math : FloatMath float32 := {
  fmod := fmodf;
  RoundHalfFromZero := RoundHalfFromZerof;
  to_uint32 := to_uint32f;
  ToDegrees := fun rad => fmul rad (fdiv (of_int 180) Pi);
  ToRadians := fun deg => fmul deg (fdiv Pi (of_int 180))
}.

(** The sweep angle in degrees that a sensor persists. *)
Definition SweepAngle (s : ARayCastRawLidar float32) : float32 :=
  ToDegrees (GetHorizontalAngle (LidarRawData s)).

(** [FVector::GetSafeNormal] of the engine, with its default tolerance
    [SMALL_NUMBER]: a vector of squared length 1 is returned as it is, a
    vector shorter than the tolerance gives the zero vector, any other
    vector is scaled by [FMath::InvSqrt], here [1.0f / sqrtf(F)]. *)
Definition SMALL_NUMBER : float32 := decimal 1 100000000.

Definition SizeSquared (v : FVector float32) : float32 :=
  fadd (fadd (fmul (X v) (X v)) (fmul (Y v) (Y v))) (fmul (Z' v) (Z' v)).

Definition InvSqrt (x : float32) : float32 := fdiv (of_int 1) (SFsqrt prec emax x).

Definition FVector_GetSafeNormal (v : FVector float32) : FVector float32 :=
  let SquareSum := SizeSquared v in
  if SFeqb SquareSum (of_int 1) then v
  else if SFltb SquareSum SMALL_NUMBER then MkVector (of_int 0) (of_int 0) (of_int 0)
  else
    let Scale := InvSqrt SquareSum in
    MkVector (fmul (X v) Scale) (fmul (Y v) Scale) (fmul (Z' v) Scale).

End Binary32.

(** ** The parallel ray-casting phase as interleaved tasks

    One task per (channel, point index) pair.  A channel owns what the
    outer lambda of [SimulateLidar] owns: the [Mutex] it declares and the
    entry [RecordedHits[idxChannel]].  A task runs the body of the inner
    lambda; [emplace_back] is two steps (read the size, then store at that
    index and set the size), so that unprotected appends can overwrite each
    other. *)

Module Concurrent.

Section Tasks.

Variable Hit : Type.

Inductive PC : Type :=
| AtShoot                       (* before PreprocessRay and ShootLaser *)
| AtLock (h : Hit)              (* before Mutex.Lock() *)
| AtSize (h : Hit)              (* in emplace_back, before the size is read *)
| AtStore (h : Hit) (n : nat)   (* in emplace_back, size n read, before the store *)
| AtUnlock (h : Hit)            (* before Mutex.Unlock() *)
| Finished (r : option Hit).

Record Channel : Type := {
  Mutex : bool;                 (* true while some task holds it *)
  Hits : list Hit;              (* RecordedHits[idxChannel] *)
  Tasks : list PC               (* one program counter per point index *)
}.

Definition System : Type := list Channel.

Fixpoint set_nth {A : Type} (i : nat) (x : A) (l : list A) : list A :=
  match l, i with
  | [], _ => []
  | _ :: rest, O => x :: rest
  | y :: rest, S i' => y :: set_nth i' x rest
  end.

(** One step of a task at [pc]; [None] when the task is blocked or done. *)
Definition step_pc (outcome : option Hit) (ch : Channel) (pc : PC)
  : option (bool * list Hit * PC) :=
  match pc with
  | AtShoot =>
      Some (Mutex ch, Hits ch,
            match outcome with Some h => AtLock h | None => Finished None end)
  | AtLock h => if Mutex ch then None else Some (true, Hits ch, AtSize h)
  | AtSize h => Some (Mutex ch, Hits ch, AtStore h (length (Hits ch)))
  | AtStore h n => Some (Mutex ch, firstn n (Hits ch) ++ [h], AtUnlock h)
  | AtUnlock h => Some (false, Hits ch, Finished (Some h))
  | Finished _ => None
  end.

Definition step_task (outcome : nat -> option Hit) (p : nat) (ch : Channel)
  : option Channel :=
  match nth_error (Tasks ch) p with
  | Some pc =>
      match step_pc (outcome p) ch pc with
      | Some (m, v, pc') =>
          Some {| Mutex := m; Hits := v; Tasks := set_nth p pc' (Tasks ch) |}
      | None => None
      end
  | None => None
  end.

Definition step_system (outcome : nat -> nat -> option Hit) (c p : nat) (sys : System)
  : option System :=
  match nth_error sys c with
  | Some ch =>
      match step_task (outcome c) p ch with
      | Some ch' => Some (set_nth c ch' sys)
      | None => None
      end
  | None => None
  end.

(** The state after [ResetRecordedHits], when the tasks are created. *)
Definition initial_channel (Points : nat) : Channel :=
  {| Mutex := false; Hits := []; Tasks := repeat AtShoot Points |}.

Definition initial (ChannelCount Points : nat) : System :=
  repeat (initial_channel Points) ChannelCount.

Inductive reachable (outcome : nat -> nat -> option Hit) (ChannelCount Points : nat)
  : System -> Prop :=
| reach_initial : reachable outcome ChannelCount Points (initial ChannelCount Points)
| reach_step sys c p sys' :
    reachable outcome ChannelCount Points sys ->
    step_system outcome c p sys = Some sys' ->
    reachable outcome ChannelCount Points sys'.

(** Running a schedule: the list of the tasks that take the next step. *)
Fixpoint run_schedule (outcome : nat -> nat -> option Hit) (sched : list (nat * nat))
    (sys : System) : option System :=
  match sched with
  | [] => Some sys
  | (c, p) :: rest =>
      match step_system outcome c p sys with
      | Some sys' => run_schedule outcome rest sys'
      | None => None
      end
  end.

Definition is_finished (pc : PC) : bool :=
  match pc with Finished _ => true | _ => false end.

(** A task between [Mutex.Lock()] and [Mutex.Unlock()]. *)
Definition in_critical (pc : PC) : bool :=
  match pc with AtSize _ | AtStore _ _ | AtUnlock _ => true | _ => false end.

Definition terminal (sys : System) : bool :=
  forallb (fun ch => forallb is_finished (Tasks ch)) sys.

(** Number of tasks of a channel that are inside the critical section. *)
Definition holders (ch : Channel) : nat := length (filter in_critical (Tasks ch)).

(** Steps a task still has to take. *)
Definition remaining (pc : PC) : nat :=
  match pc with
  | AtShoot => 5
  | AtLock _ => 4
  | AtSize _ => 3
  | AtStore _ _ => 2
  | AtUnlock _ => 1
  | Finished _ => 0
  end.

Definition work_left (sys : System) : nat :=
  list_sum (map (fun ch => list_sum (map remaining (Tasks ch))) sys).

End Tasks.

Arguments AtShoot {Hit}.
Arguments Finished {Hit} r.
Arguments is_finished {Hit} pc.
Arguments in_critical {Hit} pc.
Arguments remaining {Hit} pc.

Section Invariant.

Context {Hit : Type}.

(** What a task has appended to the collection of its channel so far. *)
Definition written (pc : PC Hit) : list Hit :=
  match pc with
  | AtUnlock h => [h]
  | Finished r => option_list r
  | _ => []
  end.

(** The hit a task carries is the one its ray produced. *)
Definition pc_ok (outcome : option Hit) (pc : PC Hit) : Prop :=
  match pc with
  | AtShoot => True
  | AtLock h | AtSize h | AtStore h _ | AtUnlock h => outcome = Some h
  | Finished r => outcome = r
  end.

(** The invariant of a channel: the mutex is held exactly when one task
    is between [Lock] and [Unlock], and never by two; the collection holds
    what the tasks have appended; a size read inside [emplace_back] is
    still the size of the collection. *)
Record channel_ok (outcome : nat -> option Hit) (Points : nat) (ch : Channel Hit) : Prop := {
  ok_tasks : length (Tasks ch) = Points;
  ok_mutex : holders ch = if Mutex ch then 1%nat else 0%nat;
  ok_hits : Permutation (Hits ch) (flat_map written (Tasks ch));
  ok_size : forall p h n, nth_error (Tasks ch) p = Some (AtStore h n) -> n = length (Hits ch);
  ok_outcome : forall p pc, nth_error (Tasks ch) p = Some pc -> pc_ok (outcome p) pc
}.

Definition system_ok (outcome : nat -> nat -> option Hit) (ChannelCount Points : nat)
    (sys : System Hit) : Prop :=
  length sys = ChannelCount /\
  forall c ch, nth_error sys c = Some ch -> channel_ok (outcome c) Points ch.

End Invariant.

(** A schedule of two channels with two rays each; after its first six
    steps the tasks (0, 0) and (1, 1) both hold the mutex of their
    channel. *)
Definition both_locked : list (nat * nat) :=
  [(0, 0); (0, 1); (1, 0); (1, 1); (0, 0); (1, 1)]%nat.

Definition interleaved : list (nat * nat) :=
  both_locked ++
  [(0, 0); (1, 1); (0, 0); (1, 1); (0, 0); (1, 1);
   (0, 1); (1, 0); (1, 0); (0, 1); (0, 1); (1, 0); (1, 0); (0, 1)]%nat.

End Concurrent.

(** ** A small scene, used to run the definitions *)

Module Scene.

Import Binary32.

(** Poses are translations; a rotator is its (pitch, yaw) pair. *)
Definition Pose : Type := FVector float32.
Definition Rot : Type := (float32 * float32)%type.

Definition origin : FVector float32 := MkVector (of_int 0) (of_int 0) (of_int 0).

Definition wall_hit : FHitResult float32 :=
  {| bBlockingHit := true;
     ImpactPoint := MkVector (of_int 1) (of_int 0) (of_int 0);
     ImpactNormal := MkVector (of_int (-1)) (of_int 0) (of_int 0);
     Actor := Some 7%nat |}.

Definition no_hit : FHitResult float32 :=
  {| bBlockingHit := false;
     ImpactPoint := origin;
     ImpactNormal := origin;
     Actor := None |}.

Definition wall_info : FActorInfo := {| UId := 42; SemanticTags := [3%nat] |}.

Definition registry (a : AActor) : FActorView :=
  if (a =? 7)%nat then {| IsValid := true; GetActorInfo := Some wall_info |}
  else {| IsValid := false; GetActorInfo := None |}.

(** A registry that breaks the invariant of valid views. *)
Definition broken_registry (a : AActor) : FActorView :=
  {| IsValid := true; GetActorInfo := None |}.

Definition engine (trace : FVector float32 -> FVector float32 -> FHitResult float32)
    (filter : float32 -> float32 -> bool) (find : AActor -> FActorView)
  : Engine float32 Pose Rot :=
  {| GetTransform := origin;
     GetLocation := fun t => t;
     Rotator := fun _ => (of_int 0, of_int 0);
     Inverse := fun t => vneg t;
     TransformPosition := fun t v => vadd v t;
     MakeRotator := fun pitch yaw _ => (pitch, yaw);
     ComposeRotators := fun a b => (fadd (fst a) (fst b), fadd (snd a) (snd b));
     GetForwardVector := fun _ => MkVector (of_int 1) (of_int 0) (of_int 0);
     GetSafeNormal := FVector_GetSafeNormal;
     LineTraceSingleByChannel := trace;
     PreprocessRay := filter;
     RegistryFind := find |}.

(** Every ray hits the wall; no ray is vetoed. *)
Definition wall_engine : Engine float32 Pose Rot :=
  engine (fun _ _ => wall_hit) (fun _ _ => true) registry.

(** Nothing is hit. *)
Definition empty_engine : Engine float32 Pose Rot :=
  engine (fun _ _ => no_hit) (fun _ _ => true) registry.

(** Rays of the upper beam are vetoed. *)
Definition upper_veto_engine : Engine float32 Pose Rot :=
  engine (fun _ _ => wall_hit) (fun vert _ => negb (SFleb (of_int 0) vert)) registry.

Definition description (channels : nat) (rotation_frequency : float32)
  : FLidarDescription float32 :=
  {| Channels := channels;
     Range := of_int 100;
     PointsPerSecond := of_int 32;
     RotationFrequency := rotation_frequency;
     UpperFovLimit := of_int 10;
     LowerFovLimit := of_int (-10) |}.

(** The values of [DeltaTime] of the runs: 1/8 s and 1/128 s. *)
Definition eighth : float32 := of_scaled 1 (-3).
Definition short_tick : float32 := of_scaled 1 (-7).

(** A sensor object before [Set]. *)
Definition fresh : ARayCastRawLidar float32 :=
  {| Description := description 0 (of_int 0);
     LaserAngles := [];
     LidarRawData := NewLidarRawData 0;
     RecordedHits := [] |}.

(** The sensor after [Set]; the fresh object when [Set] fails. *)
Definition after_set (d : FLidarDescription float32) : ARayCastRawLidar float32 :=
  match Set_ d fresh with
  | Ok s => s
  | _ => fresh
  end.






End Scene.

(** ** Further definitions *)

Section Diagnostics.

Context {F : Type} `{FO : FloatOps F}.
Variables FTransform FRotator : Type.

(** The hit is on an actor whose view is valid but carries no info: the
    case in which [ComputeRawDetection] reads through a null pointer. *)
Definition null_info_hit (E : Engine F FTransform FRotator) (hit : FHitResult F) : bool :=
  match Actor hit with
  | Some actor =>
      IsValid (RegistryFind E actor) &&
      match GetActorInfo (RegistryFind E actor) with
      | None => true
      | Some _ => false
      end
  | None => false
  end.

Definition is_ray_cast (e : Event F) : bool :=
  match e with RayCast _ _ _ _ => true | _ => false end.
End Diagnostics.

Section SweepOfTicks.

Context {F : Type} `{FM : FloatMath F}.

(** The sweep angle (as stored, in radians) after ticks of the given
    [DeltaTime]s, from the angle stored before them: a tick with a ray
    budget updates it as [SimulateLidar] does, any other tick keeps it. *)
Fixpoint sweep_after (d : FLidarDescription F) (times : list F) (stored : F) : F :=
  match times with
  | [] => stored
  | DeltaTime :: rest =>
      sweep_after d rest
        (match PointsToScanWithOneLaser d DeltaTime with
         | Some (S _) =>
             ToRadians
               (fmod (fadd (ToDegrees stored)
                           (fmul (fmul (RotationFrequency d) (of_Z 360)) DeltaTime))
                     (of_Z 360))
         | _ => stored
         end)
  end.

End SweepOfTicks.

Section InOrder.

Import Concurrent.
Context {Hit : Type}.

(** The steps one task takes when it runs alone from start to end: five
    when its ray hits, one when it does not. *)
Definition task_steps (o : option Hit) (c p : nat) : list (nat * nat) :=
  match o with
  | Some _ => repeat (c, p) 5
  | None => [(c, p)]
  end.

(** The schedule that runs the tasks one after another, channel by
    channel and point index by point index. *)
Definition sequential_schedule (outcome : nat -> nat -> option Hit)
    (ChannelCount Points : nat) : list (nat * nat) :=
  flat_map (fun c => flat_map (fun p => task_steps (outcome c p) c p) (seq 0 Points))
           (seq 0 ChannelCount).

(** A channel whose tasks have all finished. *)
Definition finished_channel (outcome : nat -> option Hit) (Points : nat) : Channel Hit :=
  {| Mutex := false;
     Hits := flat_map (fun p => option_list (outcome p)) (seq 0 Points);
     Tasks := map (fun p => Finished (outcome p)) (seq 0 Points) |}.
End InOrder.

(** Further inputs on which the definitions are run. *)
Module Cases.

Import Binary32 Scene.

(** A configured sensor that still holds a hit and a detection of an
    earlier step. *)
Definition stale_sensor : ARayCastRawLidar float32 :=
  {| Description := Description (after_set (description 2 (of_int 1)));
     LaserAngles := LaserAngles (after_set (description 2 (of_int 1)));
     LidarRawData :=
       {| HorizontalAngle :=
            HorizontalAngle (LidarRawData (after_set (description 2 (of_int 1))));
          PointCounts := [1%nat; 0%nat];
          SerPoints := [{| point := MkVector (of_int 5) (of_int 5) (of_int 5);
                           cos_inc_angle := of_int 1;
                           object_idx := 9; object_tag := 9 |}] |};
     RecordedHits := [[wall_hit]; []] |}.

(** Every ray hits an actor whose valid view carries no info. *)
Definition broken_engine : Engine float32 Pose Rot :=
  engine (fun _ _ => wall_hit) (fun _ _ => true) broken_registry.

(** Three ticks; the second is underfilled. *)
Definition mixed_steps : list (Engine float32 Pose Rot * float32) :=
  [(wall_engine, eighth); (empty_engine, short_tick); (upper_veto_engine, of_scaled 1 (-2))].

End Cases.

(** * Properties *)

Unset Implicit Arguments.

(** ** Properties that hold for every interpretation of [float] *)

Section Structure.

Context {F : Type} `{FM : FloatMath F}.
Variables FTransform FRotator : Type.

Local Abbreviation Engine := (Engine F FTransform FRotator).
Local Abbreviation Sensor := (ARayCastRawLidar F).

Lemma EmplaceAngles_spec (Upper DeltaAngle : F) (n i : nat) (angles : list F) :
  EmplaceAngles Upper DeltaAngle n i angles =
  angles ++ map (fun k => fsub Upper (fmul (of_uint32 k) DeltaAngle)) (seq i n).
Proof.
  revert i angles. induction n as [|n IH]; intros i angles; simpl.
  - now rewrite app_nil_r.
  - rewrite IH, <- app_assoc. reflexivity.
Qed.


Lemma Set_configured (d : FLidarDescription F) (s s' : Sensor) :
  Set_ d s = Ok s' -> configured s' /\ Description s' = d.
Proof.
  unfold Set_, CreateLasers, check. simpl.
  destruct (0 <? Channels d)%nat eqn:Hpos; [|discriminate].
  intros Heq. injection Heq as <-. unfold configured. simpl.
  rewrite EmplaceAngles_spec. simpl. rewrite length_map, length_seq.
  apply Nat.ltb_lt in Hpos. auto.
Qed.

(** C8. Configuring a sensor with zero channels fails: the [check] of
    [CreateLasers] aborts the call, and no sensor state (so no beam array,
    empty or otherwise) comes out of it. *)
Theorem Set_zero_channels_fails (d : FLidarDescription F) (s : Sensor) :
  Channels d = 0%nat ->
  Set_ d s = CheckFailed "NumberOfLasers > 0u" /\
  (forall s', Set_ d s <> Ok s').
Proof.
  intros Hzero.
  assert (Hfail : Set_ d s = CheckFailed "NumberOfLasers > 0u").
  { unfold Set_, CreateLasers, check. simpl. now rewrite Hzero. }
  split; [exact Hfail|]. intros s'. rewrite Hfail. discriminate.
Qed.


Lemma Tick_underfilled (E : Engine) (DeltaTime : F) (s : Sensor) :
  PointsToScanWithOneLaser (Description s) DeltaTime = Some 0%nat ->
  Tick E DeltaTime s =
  Ok (s, [LogWarning no_points_warning; Send (LidarRawData s)]).
Proof.
  intros Hb. unfold Tick, SimulateLidar. rewrite Hb. reflexivity.
Qed.

(** *** Semantic resolution *)

Lemma ComputeRawDetection_total (E : Engine) (hit : FHitResult F) (T : FTransform) :
  registry_ok E -> exists det, ComputeRawDetection E hit T = Ok det.
Proof.
  intros Hreg. unfold ComputeRawDetection.
  destruct (Actor hit) as [a|]; [|eauto].
  specialize (Hreg a).
  destruct (IsValid (RegistryFind E a)); [|eauto].
  destruct (GetActorInfo (RegistryFind E a)) as [info|]; [|now exfalso; apply Hreg].
  simpl. destruct (length (SemanticTags info) =? 1)%nat; eauto.
Qed.

(** C5. With a registry whose valid views carry their actor info,
    semantic resolution always yields a detection: index 0 and tag NONE
    when the hit has no actor or the view found for it is not valid;
    otherwise the [UId] of the actor, with the tag of its only label, or
    NONE when it has no label or several. *)
Theorem ComputeRawDetection_semantics (E : Engine) (hit : FHitResult F) (T : FTransform) :
  registry_ok E ->
  exists det,
    ComputeRawDetection E hit T = Ok det /\
    (Actor hit = None -> object_idx det = 0%nat /\ object_tag det = LabelNone) /\
    (forall a, Actor hit = Some a -> IsValid (RegistryFind E a) = false ->
       object_idx det = 0%nat /\ object_tag det = LabelNone) /\
    (forall a info, Actor hit = Some a -> IsValid (RegistryFind E a) = true ->
       GetActorInfo (RegistryFind E a) = Some info ->
       object_idx det = UId info /\
       (forall l, SemanticTags info = [l] -> object_tag det = l) /\
       (length (SemanticTags info) <> 1%nat -> object_tag det = LabelNone)).
Proof.
  intros Hreg. unfold ComputeRawDetection.
  destruct (Actor hit) as [a|] eqn:Hactor.
  - pose proof (Hreg a) as Ha.
    destruct (IsValid (RegistryFind E a)) eqn:Hvalid.
    + destruct (GetActorInfo (RegistryFind E a)) as [info|] eqn:Hinfo;
        [|now exfalso; apply Ha].
      simpl.
      destruct (length (SemanticTags info) =? 1)%nat eqn:Hone;
        eexists; (split; [reflexivity|]); (split; [discriminate|]); split.
      * intros a' Heq Hv. injection Heq as <-. congruence.
      * intros a' info' Heq _ Hi. injection Heq as <-.
        rewrite Hinfo in Hi. injection Hi as <-. simpl.
        split; [reflexivity|]. split.
        -- intros l Hl. now rewrite Hl.
        -- intros Hne. apply Nat.eqb_eq in Hone. contradiction.
      * intros a' Heq Hv. injection Heq as <-. congruence.
      * intros a' info' Heq _ Hi. injection Heq as <-.
        rewrite Hinfo in Hi. injection Hi as <-. simpl.
        split; [reflexivity|]. split.
        -- intros l Hl. rewrite Hl in Hone. discriminate.
        -- reflexivity.
    + eexists; (split; [reflexivity|]); (split; [discriminate|]); split.
      * intros; simpl; auto.
      * intros a' info Heq Hv. injection Heq as <-. congruence.
  - eexists; (split; [reflexivity|]); (split; [simpl; auto|]); split; discriminate.
Qed.

(** C10. When the view found for the actor of a hit is valid,
    [ActorInfo->Description.UId] is read before [ActorInfo] is compared
    with [nullptr]: a null info makes the computation undefined; the
    computation is defined for every hit exactly when every valid view
    carries its info; and in a defined computation that reaches the test,
    [ActorInfo] is not null, so the [else] branch of the test is never
    taken. *)
Theorem ComputeRawDetection_null_info (E : Engine) :
  (forall hit T a, Actor hit = Some a -> IsValid (RegistryFind E a) = true ->
     GetActorInfo (RegistryFind E a) = None ->
     ComputeRawDetection E hit T = Undefined) /\
  ((forall hit T, exists det, ComputeRawDetection E hit T = Ok det) <-> registry_ok E) /\
  (forall hit T det a, ComputeRawDetection E hit T = Ok det ->
     Actor hit = Some a -> IsValid (RegistryFind E a) = true ->
     GetActorInfo (RegistryFind E a) <> None).
Proof.
  assert (Hnull : forall hit T a, Actor hit = Some a ->
            IsValid (RegistryFind E a) = true ->
            GetActorInfo (RegistryFind E a) = None ->
            ComputeRawDetection E hit T = Undefined).
  { intros hit T a Ha Hv Hi. unfold ComputeRawDetection.
    rewrite Ha, Hv, Hi. reflexivity. }
  split; [exact Hnull|]. split.
  - split.
    + intros Hdef a Hv Hi.
      pose (hit := {| bBlockingHit := true;
                      ImpactPoint := MkVector (of_Z 0) (of_Z 0) (of_Z 0);
                      ImpactNormal := MkVector (of_Z 0) (of_Z 0) (of_Z 0);
                      Actor := Some a |}).
      destruct (Hdef hit (GetTransform E)) as [det Hdet].
      rewrite (Hnull hit (GetTransform E) a eq_refl Hv Hi) in Hdet. discriminate.
    + intros Hreg hit T. now apply ComputeRawDetection_total.
  - intros hit T det a Hdet Ha Hv Hi.
    rewrite (Hnull hit T a Ha Hv Hi) in Hdet. discriminate.
Qed.

(** *** The casting phase *)

Lemma emplace_back_at_app {A : Type} (pre : list (list A)) (row : list A)
    (post : list (list A)) (x : A) :
  emplace_back_at (length pre) x (pre ++ row :: post) = Some (pre ++ (row ++ [x]) :: post).
Proof.
  induction pre as [|r pre IH]; simpl; [reflexivity|]. now rewrite IH.
Qed.

Lemma PointTask_spec (E : Engine) (s : Sensor) (cur stride : F) (p : nat)
    (pre : list (list (FHitResult F))) (row : list (FHitResult F))
    (post : list (list (FHitResult F))) (trace : list (Event F)) :
  (length pre < Channels (Description s))%nat ->
  PointTask E cur stride (length pre) p (with_hits s (pre ++ row :: post), trace) =
  Ok (with_hits s (pre ++ (row ++ option_list (RayOutcome E s cur stride (length pre) p)) :: post),
      trace ++ RayEvents E s cur stride (length pre) p).
Proof.
  intros Hch. unfold PointTask, RayOutcome, RayEvents, RayAngles. cbn [with_hits LaserAngles].
  destruct (PreprocessRay E _ _).
  - change (ShootLaser E (with_hits s (pre ++ row :: post))) with (ShootLaser E s).
    destruct (ShootLaser E s _ _) as [hit|]; cbn [option_list].
    + unfold WritePointAsync, GetChannelCount, check. cbn [with_hits RecordedHits Description].
      apply Nat.ltb_lt in Hch. rewrite Hch.
      rewrite emplace_back_at_app. reflexivity.
    + now rewrite app_nil_r.
  - cbn [option_list]. now rewrite !app_nil_r.
Qed.

Lemma ChannelTask_from (E : Engine) (s : Sensor) (cur stride : F) (n first : nat)
    (pre : list (list (FHitResult F))) (row : list (FHitResult F))
    (post : list (list (FHitResult F))) (trace : list (Event F)) :
  (length pre < Channels (Description s))%nat ->
  ParallelForFrom n first (PointTask E cur stride (length pre))
    (with_hits s (pre ++ row :: post), trace) =
  Ok (with_hits s
        (pre ++ (row ++ flat_map (fun p => option_list (RayOutcome E s cur stride (length pre) p))
                          (seq first n)) :: post),
      trace ++ flat_map (RayEvents E s cur stride (length pre)) (seq first n)).
Proof.
  intros Hch. revert first row trace. induction n as [|n IH]; intros first row trace.
  - simpl. now rewrite !app_nil_r.
  - cbn [ParallelForFrom]. rewrite PointTask_spec by exact Hch. cbn [bind].
    rewrite IH. cbn [seq flat_map]. now rewrite <- !app_assoc.
Qed.

Lemma ChannelTask_spec (E : Engine) (s : Sensor) (cur stride : F) (Points : nat)
    (pre post : list (list (FHitResult F))) (trace : list (Event F)) :
  (length pre < Channels (Description s))%nat ->
  ChannelTask E cur stride Points (length pre) (with_hits s (pre ++ [] :: post), trace) =
  Ok (with_hits s (pre ++ ExpectedHits E s cur stride Points (length pre) :: post),
      trace ++ ExpectedRays E s cur stride Points (length pre)).
Proof.
  intros Hch. unfold ChannelTask, ParallelFor. now rewrite ChannelTask_from.
Qed.

Lemma Channels_from (E : Engine) (s : Sensor) (cur stride : F) (Points n : nat)
    (pre : list (list (FHitResult F))) (trace : list (Event F)) :
  (length pre + n <= Channels (Description s))%nat ->
  ParallelForFrom n (length pre) (ChannelTask E cur stride Points)
    (with_hits s (pre ++ repeat [] n), trace) =
  Ok (with_hits s (pre ++ map (ExpectedHits E s cur stride Points) (seq (length pre) n)),
      trace ++ flat_map (ExpectedRays E s cur stride Points) (seq (length pre) n)).
Proof.
  revert pre trace. induction n as [|n IH]; intros pre trace Hch.
  - simpl. now rewrite !app_nil_r.
  - cbn [ParallelForFrom repeat]. rewrite ChannelTask_spec by lia. cbn [bind].
    replace (pre ++ ExpectedHits E s cur stride Points (length pre) :: repeat [] n)
      with ((pre ++ [ExpectedHits E s cur stride Points (length pre)]) ++ repeat [] n)
      by now rewrite <- app_assoc.
    replace (S (length pre))
      with (length (pre ++ [ExpectedHits E s cur stride Points (length pre)]))
      by (rewrite length_app; simpl; lia).
    rewrite IH by (rewrite length_app; simpl; lia). rewrite length_app. simpl length.
    replace (length pre + 1)%nat with (S (length pre)) by lia.
    cbn [seq map flat_map]. now rewrite <- !app_assoc.
Qed.

(** The whole parallel phase, from the state [ResetRecordedHits] leaves;
    the channels are those of the sensor, so that the assertion of
    [WritePointAsync] holds. *)
Lemma cast_phase (E : Engine) (s : Sensor) (cur stride : F) (ChannelCount Points : nat) :
  (ChannelCount <= Channels (Description s))%nat ->
  ParallelFor ChannelCount (ChannelTask E cur stride Points)
    (ResetRecordedHits ChannelCount Points s, []) =
  Ok (with_hits s (map (ExpectedHits E s cur stride Points) (seq 0 ChannelCount)),
      flat_map (ExpectedRays E s cur stride Points) (seq 0 ChannelCount)).
Proof.
  intros Hch. unfold ParallelFor.
  exact (Channels_from E s cur stride Points ChannelCount [] [] Hch).
Qed.

(** *** Filling the point buffer *)

Lemma SaveChannel_spec (E : Engine) (T : FTransform) (hits : list (FHitResult F))
    (data : FLidarRawData F) :
  registry_ok E ->
  exists dets,
    Detections E T hits dets /\
    SaveChannel E T hits data =
    Ok {| HorizontalAngle := HorizontalAngle data;
          PointCounts := PointCounts data;
          SerPoints := SerPoints data ++ dets |}.
Proof.
  intros Hreg. revert data. induction hits as [|hit hits IH]; intros data.
  - exists []. split; [constructor|]. simpl. rewrite app_nil_r. now destruct data.
  - destruct (ComputeRawDetection_total E hit T Hreg) as [det Hdet].
    destruct (IH (WritePointSync det data)) as [dets [Hdets Hsave]].
    exists (det :: dets). split; [now constructor|].
    cbn [SaveChannel]. rewrite Hdet. cbn [bind]. rewrite Hsave.
    unfold WritePointSync. cbn. now rewrite <- app_assoc.
Qed.

Lemma at_channel_app (s : Sensor) (pre : list (list (FHitResult F)))
    (row : list (FHitResult F)) (post : list (list (FHitResult F))) :
  at_channel (with_hits s (pre ++ row :: post)) (length pre) = Ok row.
Proof.
  unfold at_channel. cbn [with_hits RecordedHits].
  rewrite nth_error_app2 by lia. now rewrite Nat.sub_diag.
Qed.

Lemma CountChannels_spec (s : Sensor) (pre rows : list (list (FHitResult F))) :
  CountChannels (with_hits s (pre ++ rows)) (length rows) (length pre) =
  Ok (map (@length _) rows).
Proof.
  revert pre. induction rows as [|row rows IH]; intros pre; [reflexivity|].
  cbn [CountChannels length]. rewrite at_channel_app. cbn [bind].
  replace (pre ++ row :: rows) with ((pre ++ [row]) ++ rows) by now rewrite <- app_assoc.
  replace (S (length pre)) with (length (pre ++ [row])) by (rewrite length_app; simpl; lia).
  now rewrite IH.
Qed.

Lemma SaveChannels_spec (E : Engine) (T : FTransform) (s : Sensor)
    (pre rows : list (list (FHitResult F))) (data : FLidarRawData F) :
  registry_ok E ->
  exists dets,
    Detections E T (concat rows) dets /\
    SaveChannels E T (with_hits s (pre ++ rows)) (length rows) (length pre) data =
    Ok {| HorizontalAngle := HorizontalAngle data;
          PointCounts := PointCounts data;
          SerPoints := SerPoints data ++ dets |}.
Proof.
  intros Hreg. revert pre data. induction rows as [|row rows IH]; intros pre data.
  - exists []. split; [constructor|]. simpl. rewrite app_nil_r. now destruct data.
  - destruct (SaveChannel_spec E T row data Hreg) as [dets1 [Hd1 Hs1]].
    replace (pre ++ row :: rows) with ((pre ++ [row]) ++ rows) by now rewrite <- app_assoc.
    destruct (IH (pre ++ [row])
                 {| HorizontalAngle := HorizontalAngle data;
                    PointCounts := PointCounts data;
                    SerPoints := SerPoints data ++ dets1 |}) as [dets2 [Hd2 Hs2]].
    exists (dets1 ++ dets2). split.
    + simpl. now apply Forall2_app.
    + cbn [SaveChannels length].
      replace ((pre ++ [row]) ++ rows) with (pre ++ row :: rows) by now rewrite <- app_assoc.
      rewrite at_channel_app. cbn [bind]. rewrite Hs1. cbn [bind].
      replace (pre ++ row :: rows) with ((pre ++ [row]) ++ rows) by now rewrite <- app_assoc.
      replace (S (length pre)) with (length (pre ++ [row]))
        by (rewrite length_app; simpl; lia).
      rewrite Hs2. cbn. now rewrite <- app_assoc.
Qed.

Lemma ComputeAndSaveDetections_spec (E : Engine) (T : FTransform) (s : Sensor)
    (rows : list (list (FHitResult F))) :
  registry_ok E ->
  length rows = Channels (Description s) ->
  exists dets,
    Detections E T (concat rows) dets /\
    ComputeAndSaveDetections E T (with_hits s rows) =
    Ok {| Description := Description s;
          LaserAngles := LaserAngles s;
          LidarRawData :=
            {| HorizontalAngle := HorizontalAngle (LidarRawData s);
               PointCounts := map (@length _) rows;
               SerPoints := dets |};
          RecordedHits := rows |}.
Proof.
  intros Hreg Hlen.
  destruct (SaveChannels_spec E T s [] rows
              (ResetSerPoints (map (@length _) rows) (LidarRawData s)) Hreg)
    as [dets [Hdets Hsave]].
  exists dets. split; [exact Hdets|].
  pose proof (CountChannels_spec s [] rows) as Hcount.
  cbn [app length] in Hsave, Hcount.
  unfold ComputeAndSaveDetections. cbn [with_hits Description].
  rewrite <- Hlen, Hcount. cbn [bind].
  cbn [LidarRawData with_hits] in Hsave |- *.
  rewrite Hsave. reflexivity.
Qed.

(** *** A whole step *)

(** A step whose budget is not zero, on a configured sensor and with a
    well-formed registry, returns; the sensor it leaves is described
    field by field. *)
Lemma SimulateLidar_spec (E : Engine) (DeltaTime : F) (s : Sensor) (Points : nat) :
  configured s ->
  registry_ok E ->
  PointsToScanWithOneLaser (Description s) DeltaTime = Some Points ->
  (0 < Points)%nat ->
  let cur := ToDegrees (GetHorizontalAngle (LidarRawData s)) in
  let dist := fmul (fmul (RotationFrequency (Description s)) (of_Z 360)) DeltaTime in
  let stride := fdiv dist (of_uint32 Points) in
  let hits := map (ExpectedHits E s cur stride Points) (seq 0 (Channels (Description s))) in
  exists dets,
    Detections E (GetTransform E) (concat hits) dets /\
    SimulateLidar E DeltaTime s =
    Ok ({| Description := Description s;
           LaserAngles := LaserAngles s;
           LidarRawData :=
             {| HorizontalAngle := ToRadians (fmod (fadd cur dist) (of_Z 360));
                PointCounts := map (@length _) hits;
                SerPoints := dets |};
           RecordedHits := hits |},
        flat_map (ExpectedRays E s cur stride Points) (seq 0 (Channels (Description s)))).
Proof.
  intros [Hpos Hlen] Hreg Hbudget HP cur dist stride hits.
  destruct (ComputeAndSaveDetections_spec E (GetTransform E) s hits Hreg) as [dets [Hd Hc]].
  { unfold hits. now rewrite length_map, length_seq. }
  exists dets. split; [exact Hd|].
  unfold SimulateLidar. rewrite Hbudget.
  destruct (Points <=? 0)%nat eqn:Hz; [apply Nat.leb_le in Hz; lia|].
  unfold check. rewrite Hlen, Nat.eqb_refl.
  fold cur. fold dist. fold stride.
  rewrite <- Hlen at 1. rewrite Hlen.
  rewrite cast_phase by apply le_n. cbn [bind]. fold hits.
  rewrite Hc. cbn [bind]. reflexivity.
Qed.

Lemma RayCast_in_trace (E : Engine) (s : Sensor) (cur stride : F)
    (ChannelCount Points c p : nat) (v h : F) :
  In (RayCast c p v h) (flat_map (ExpectedRays E s cur stride Points) (seq 0 ChannelCount)) <->
  (c < ChannelCount)%nat /\ (p < Points)%nat /\
  v = nth c (LaserAngles s) (of_Z 0) /\
  h = fadd cur (fmul stride (of_uint32 p)) /\
  PreprocessRay E v h = true.
Proof.
  rewrite in_flat_map. unfold ExpectedRays. split.
  - intros [c' [Hc Hin]]. apply in_flat_map in Hin. destruct Hin as [p' [Hp Hin]].
    apply in_seq in Hc. apply in_seq in Hp.
    unfold RayEvents, RayAngles in Hin.
    destruct (PreprocessRay E _ _) eqn:Hpre; [|contradiction].
    destruct Hin as [Heq|[]]. injection Heq as -> -> <- <-.
    repeat split; auto; lia.
  - intros (Hc & Hp & -> & -> & Hpre).
    exists c. split; [apply in_seq; lia|].
    apply in_flat_map. exists p. split; [apply in_seq; lia|].
    unfold RayEvents, RayAngles. rewrite Hpre. now left.
Qed.

(** C7. In a step that casts rays, the ray of channel [c] and index
    [p < Points] has vertical angle [LaserAngles[c]] and horizontal angle
    [start + stride * p], with [stride = (RotationFrequency * 360 *
    DeltaTime) / Points]: it is cast exactly when the pre-filter accepts
    that pair of angles, and the hits recorded for the channel are the
    blocking hits of its accepted rays, so a vetoed pair is neither cast
    nor recorded. *)
Theorem SimulateLidar_rays (E : Engine) (DeltaTime : F) (s : Sensor) (Points : nat) :
  configured s ->
  registry_ok E ->
  PointsToScanWithOneLaser (Description s) DeltaTime = Some Points ->
  (0 < Points)%nat ->
  let start := ToDegrees (GetHorizontalAngle (LidarRawData s)) in
  let stride :=
    fdiv (fmul (fmul (RotationFrequency (Description s)) (of_Z 360)) DeltaTime)
         (of_uint32 Points) in
  exists s' trace,
    SimulateLidar E DeltaTime s = Ok (s', trace) /\
    forall c p, (c < Channels (Description s))%nat -> (p < Points)%nat ->
      let vert := nth c (LaserAngles s) (of_Z 0) in
      let horiz := fun q => fadd start (fmul stride (of_uint32 q)) in
      (PreprocessRay E vert (horiz p) = true -> In (RayCast c p vert (horiz p)) trace) /\
      (forall v h, In (RayCast c p v h) trace ->
         v = vert /\ h = horiz p /\ PreprocessRay E vert (horiz p) = true) /\
      nth c (RecordedHits s') [] =
        flat_map (fun q => if PreprocessRay E vert (horiz q)
                           then option_list (ShootLaser E s vert (horiz q))
                           else [])
                 (seq 0 Points).
Proof.
  intros Hconf Hreg Hbudget HP start stride.
  destruct (SimulateLidar_spec E DeltaTime s Points Hconf Hreg Hbudget HP)
    as [dets [_ Hstep]].
  fold start in Hstep. fold stride in Hstep.
  eexists; eexists; split; [exact Hstep|].
  intros c p Hc Hp vert horiz. split; [|split].
  - intros Hpre. apply RayCast_in_trace. repeat split; auto.
  - intros v h Hin. apply RayCast_in_trace in Hin.
    destruct Hin as (_ & _ & -> & -> & Hpre). auto.
  - cbn [RecordedHits].
    rewrite (nth_indep _ [] (ExpectedHits E s start stride Points 0))
      by (rewrite length_map, length_seq; exact Hc).
    rewrite (map_nth (ExpectedHits E s start stride Points)).
    rewrite seq_nth by exact Hc. simpl.
    unfold ExpectedHits. apply flat_map_ext. intros q.
    unfold RayOutcome, RayAngles. fold vert.
    now destruct (PreprocessRay E vert _).
Qed.


(** *** The detection of a hit *)


(** *** The sweep angle *)




Lemma Tick_sweep (E : Engine) (DeltaTime : F) (s : Sensor) :
  configured s ->
  registry_ok E ->
  PointsToScanWithOneLaser (Description s) DeltaTime <> None ->
  exists s' trace,
    Tick E DeltaTime s = Ok (s', trace) /\
    Description s' = Description s /\
    LaserAngles s' = LaserAngles s /\
    GetHorizontalAngle (LidarRawData s') =
    sweep_after (Description s) [DeltaTime] (GetHorizontalAngle (LidarRawData s)).
Proof.
  intros Hconf Hreg Hb. cbn [sweep_after].
  destruct (PointsToScanWithOneLaser (Description s) DeltaTime) as [[|P]|] eqn:Hbudget;
    [| |contradiction].
  - rewrite (Tick_underfilled E DeltaTime s Hbudget).
    eexists; eexists. repeat split.
  - destruct (SimulateLidar_spec E DeltaTime s (S P) Hconf Hreg Hbudget ltac:(lia))
      as [dets [_ Hstep]].
    unfold Tick. rewrite Hstep. cbn [bind].
    eexists; eexists. split; [reflexivity|]. repeat split.
Qed.

(** Any sequence of ticks with defined ray budgets, on a configured
    sensor and with well-formed registries, returns; the sweep angle it
    leaves is that of [sweep_after]. *)
Lemma Ticks_sweep (steps : list (Engine * F)) :
  forall s : Sensor,
    configured s ->
    Forall (fun step : Engine * F =>
              registry_ok (fst step) /\
              PointsToScanWithOneLaser (Description s) (snd step) <> None) steps ->
    exists s' trace,
      Ticks steps s = Ok (s', trace) /\
      Description s' = Description s /\
      LaserAngles s' = LaserAngles s /\
      GetHorizontalAngle (LidarRawData s') =
      sweep_after (Description s) (map snd steps) (GetHorizontalAngle (LidarRawData s)).
Proof.
  induction steps as [|[E dt] steps IH]; intros s Hconf Hall.
  - exists s, []. repeat split.
  - inversion Hall as [|step rest [Hreg Hb] Hrest]; subst. cbn [fst snd] in Hreg, Hb.
    destruct (Tick_sweep E dt s Hconf Hreg Hb) as (s1 & tr1 & Htick & Hd1 & Hl1 & Ha1).
    destruct (IH s1) as (s2 & tr2 & Hrun & Hd2 & Hl2 & Ha2).
    + destruct Hconf as [Hc1 Hc2]. split; congruence.
    + rewrite Hd1. exact Hrest.
    + exists s2, (tr1 ++ tr2). split.
      * cbn [Ticks]. rewrite Htick. cbn [bind]. rewrite Hrun. reflexivity.
      * split; [congruence|]. split; [congruence|].
        rewrite Ha2, Hd1, Ha1. reflexivity.
Qed.

End Structure.

(** ** The beam array in binary32 *)

Section Beams.

Import Binary32.










End Beams.

(** ** Runs on the scene, in binary32 *)

Section Runs.

Import Binary32 Scene.

Lemma scene_registry_ok (trace : FVector float32 -> FVector float32 -> FHitResult float32)
    (filter : float32 -> float32 -> bool) :
  registry_ok (engine trace filter registry).
Proof.
  intros a. cbn [RegistryFind engine]. unfold registry.
  destruct (a =? 7)%nat; cbn; [discriminate|discriminate].
Qed.

Lemma after_set_configured (d : FLidarDescription float32) :
  Channels d <> 0%nat -> configured (after_set d) /\ Description (after_set d) = d.
Proof.
  intros Hch. unfold after_set.
  destruct (Set_ d fresh) as [s| |] eqn:Hset.
  - now apply Set_configured in Hset.
  - unfold Set_, CreateLasers, check in Hset. cbn in Hset.
    destruct (Channels d); [contradiction|discriminate].
  - unfold Set_, CreateLasers, check in Hset. cbn in Hset.
    destruct (Channels d); discriminate.
Qed.

Lemma budget_of_eighth :
  PointsToScanWithOneLaser (Description (after_set (description 2 (of_int 1)))) eighth =
  Some 2%nat.
Proof. vm_compute. reflexivity. Qed.

Lemma Set_after_set :
  Set_ (description 2 (of_int 1)) fresh = Ok (after_set (description 2 (of_int 1))).
Proof. vm_compute. reflexivity. Qed.

Lemma Set_zero_channels_fails_witness :
  Set_ (description 0 (of_int 1)) fresh = CheckFailed "NumberOfLasers > 0u".
Proof.
  exact (proj1 (Set_zero_channels_fails (description 0 (of_int 1)) fresh eq_refl)).
Defined.


Lemma ComputeRawDetection_semantics_witness :
  exists det,
    ComputeRawDetection wall_engine wall_hit origin = Ok det /\
    object_idx det = 42%nat /\ object_tag det = 3%nat.
Proof.
  destruct (ComputeRawDetection_semantics Pose Rot wall_engine wall_hit origin
              (scene_registry_ok _ _)) as (det & Hdet & _ & _ & Hfound).
  exists det. split; [exact Hdet|].
  destruct (Hfound 7%nat wall_info eq_refl eq_refl eq_refl) as (Hidx & Htag & _).
  split; [exact Hidx|exact (Htag 3%nat eq_refl)].
Defined.

Lemma SimulateLidar_rays_witness :
  exists s' trace,
    SimulateLidar upper_veto_engine eighth (after_set (description 2 (of_int 1))) =
    Ok (s', trace) /\
    (forall v h, ~ In (RayCast 0 1 v h) trace) /\
    nth 0 (RecordedHits s') [] = [] /\
    nth 1 (RecordedHits s') [] = [wall_hit; wall_hit].
Proof.
  destruct (SimulateLidar_rays Pose Rot upper_veto_engine eighth
              (after_set (description 2 (of_int 1))) 2
              (proj1 (after_set_configured (description 2 (of_int 1)) ltac:(discriminate)))
              (scene_registry_ok _ _) budget_of_eighth ltac:(lia))
    as (s' & trace & Hstep & Hrays).
  exists s', trace. split; [exact Hstep|].
  destruct (Hrays 0%nat 1%nat ltac:(cbn; lia) ltac:(lia)) as (_ & Hveto & Hrow0).
  destruct (Hrays 1%nat 1%nat ltac:(cbn; lia) ltac:(lia)) as (_ & _ & Hrow1).
  split; [|split].
  - intros v h Hin. destruct (Hveto v h Hin) as (_ & _ & Hpre).
    vm_compute in Hpre. discriminate Hpre.
  - rewrite Hrow0. vm_compute. reflexivity.
  - rewrite Hrow1. vm_compute. reflexivity.
Defined.




(** With a registry that returns a valid view without actor info, the
    detection of a hit on an actor is undefined. *)
Lemma null_info_is_undefined :
  ComputeRawDetection (engine (fun _ _ => wall_hit) (fun _ _ => true) broken_registry)
    wall_hit origin = Undefined.
Proof. reflexivity. Qed.


(** The stored angle is rounded at every step: eight ticks of 45 degrees
    from angle 0 leave the angle 359.99994 degrees, not
    [(1 * 360 * (1/8) * 8) mod 360 = 0]; after five of them it is
    224.999985 degrees. *)
Lemma sweep_angle_rounding_drift :
  (exists s' trace,
     Ticks (map (fun E => (E, eighth)) (repeat wall_engine 5))
       (after_set (description 2 (of_int 1))) = Ok (s', trace) /\
     SweepAngle s' = S754_finite false 14745599 (-16) /\
     SFeqb (SweepAngle s') (of_int 225) = false) /\
  (exists s' trace,
     Ticks (map (fun E => (E, eighth)) (repeat wall_engine 8))
       (after_set (description 2 (of_int 1))) = Ok (s', trace) /\
     SweepAngle s' = S754_finite false 11796478 (-15) /\
     SFeqb (SweepAngle s') (of_int 0) = false).
Proof.
  split; eexists; eexists; (split; [vm_compute; reflexivity|]);
    split; vm_compute; reflexivity.
Qed.



(** C6: the second of these two ticks is underfilled, and the buffer it
    sends is the buffer of the first tick, with its four detections. *)
Theorem underfilled_tick_resends_previous_points :
  exists s1 rays buffer,
    Tick wall_engine eighth (after_set (description 2 (of_int 1))) =
      Ok (s1, rays ++ [Send buffer]) /\
    length (SerPoints buffer) = 4%nat /\
    PointsToScanWithOneLaser (Description s1) short_tick = Some 0%nat /\
    Tick wall_engine short_tick s1 =
      Ok (s1, [LogWarning no_points_warning; Send buffer]).
Proof.
  eexists. eexists. eexists. split.
  - vm_compute.
    match goal with |- Ok (?s, ?a :: ?b :: ?c :: ?d :: ?e) = _ =>
      change (Ok (s, a :: b :: c :: d :: e)) with (Ok (s, [a; b; c; d] ++ e)) end.
    reflexivity.
  - split; [vm_compute; reflexivity|]. split; vm_compute; reflexivity.
Qed.

End Runs.

(** ** The parallel phase *)

Section Interleaving.

Import Concurrent.
Context {Hit : Type}.
Implicit Types (pc : PC Hit) (ch : Channel Hit) (sys : System Hit).

Lemma set_nth_app {A : Type} (l1 : list A) (x y : A) (l2 : list A) :
  set_nth (length l1) y (l1 ++ x :: l2) = l1 ++ y :: l2.
Proof. induction l1 as [|a l1 IH]; simpl; [reflexivity|now rewrite IH]. Qed.

Lemma length_set_nth {A : Type} (i : nat) (x : A) (l : list A) :
  length (set_nth i x l) = length l.
Proof.
  revert i. induction l as [|a l IH]; intros [|i]; simpl; auto.
Qed.

Lemma nth_error_set_nth_eq {A : Type} (i : nat) (x : A) (l : list A) :
  (i < length l)%nat -> nth_error (set_nth i x l) i = Some x.
Proof.
  revert i. induction l as [|a l IH]; intros [|i] Hi; simpl in *; try lia; auto.
  apply IH. lia.
Qed.

Lemma nth_error_set_nth_neq {A : Type} (i j : nat) (x : A) (l : list A) :
  i <> j -> nth_error (set_nth i x l) j = nth_error l j.
Proof.
  revert i j. induction l as [|a l IH]; intros [|i] [|j] Hij; simpl; auto; try lia.
Qed.

Lemma holders_app (l1 l2 : list (PC Hit)) (pc : PC Hit) :
  length (filter in_critical (l1 ++ pc :: l2)) =
  (length (filter in_critical l1) + (if in_critical pc then 1 else 0) +
   length (filter in_critical l2))%nat.
Proof.
  rewrite filter_app, length_app. simpl. destruct (in_critical pc); simpl; lia.
Qed.

Lemma no_holder (l : list (PC Hit)) :
  length (filter in_critical l) = 0%nat ->
  forall p pc, nth_error l p = Some pc -> in_critical pc = false.
Proof.
  induction l as [|a l IH]; intros Hn p pc Hp.
  - destruct p; discriminate.
  - simpl in Hn. destruct (in_critical a) eqn:Ha; [simpl in Hn; lia|].
    destruct p as [|p]; simpl in Hp.
    + injection Hp as <-. exact Ha.
    + eapply IH; eauto.
Qed.

Lemma written_app (l1 l2 : list (PC Hit)) (pc : PC Hit) :
  flat_map written (l1 ++ pc :: l2) =
  flat_map written l1 ++ written pc ++ flat_map written l2.
Proof. rewrite flat_map_app. reflexivity. Qed.

Lemma remaining_app (l1 l2 : list (PC Hit)) (pc : PC Hit) :
  list_sum (map remaining (l1 ++ pc :: l2)) =
  (list_sum (map remaining l1) + remaining pc + list_sum (map remaining l2))%nat.
Proof. rewrite map_app, list_sum_app. simpl. lia. Qed.

(** What a step of task [p] does, with the task list split at [p]. *)
Lemma step_task_inv (outcome : nat -> option Hit) (p : nat) (ch ch' : Channel Hit) :
  step_task outcome p ch = Some ch' ->
  exists l1 pc l2 m v pc',
    Tasks ch = l1 ++ pc :: l2 /\ length l1 = p /\
    step_pc (outcome p) ch pc = Some (m, v, pc') /\
    ch' = {| Mutex := m; Hits := v; Tasks := l1 ++ pc' :: l2 |}.
Proof.
  unfold step_task. destruct (nth_error (Tasks ch) p) as [pc|] eqn:Hp; [|discriminate].
  destruct (step_pc (outcome p) ch pc) as [[[m v] pc']|] eqn:Hs; [|discriminate].
  intros Heq. injection Heq as <-.
  destruct (nth_error_split _ _ Hp) as (l1 & l2 & Hl & Hlen).
  exists l1, pc, l2, m, v, pc'. repeat split; auto.
  rewrite Hl, <- Hlen, set_nth_app. reflexivity.
Qed.

Lemma nth_error_middle {A : Type} (l1 l2 : list A) (x y : A) (q : nat) (z : A) :
  nth_error (l1 ++ y :: l2) q = Some z ->
  (q = length l1 /\ z = y) \/ (q <> length l1 /\ nth_error (l1 ++ x :: l2) q = Some z).
Proof.
  intros Hq. destruct (Nat.eq_dec q (length l1)) as [->|Hne].
  - left. split; [reflexivity|].
    rewrite nth_error_app2, Nat.sub_diag in Hq by lia. simpl in Hq. congruence.
  - right. split; [exact Hne|].
    destruct (Nat.lt_ge_cases q (length l1)).
    + rewrite nth_error_app1 in Hq |- * by lia. exact Hq.
    + rewrite nth_error_app2 in Hq |- * by lia.
      destruct (q - length l1)%nat as [|k] eqn:Hk; [lia|]. exact Hq.
Qed.

Lemma step_task_ok (outcome : nat -> option Hit) (Points p : nat) (ch ch' : Channel Hit) :
  channel_ok outcome Points ch ->
  step_task outcome p ch = Some ch' ->
  channel_ok outcome Points ch'.
Proof.
  intros [Hlen Hmx Hhits Hsize Hout] Hstep.
  destruct (step_task_inv _ _ _ _ Hstep) as (l1 & pc & l2 & m & v & pc' & Hl & Hp & Hpc & ->).
  unfold holders in Hmx. rewrite Hl in Hlen, Hmx, Hhits.
  rewrite holders_app in Hmx. rewrite written_app in Hhits.
  assert (Hme : pc_ok (outcome p) pc).
  { apply Hout. rewrite Hl, nth_error_app2, Hp, Nat.sub_diag by lia. reflexivity. }
  assert (Hothers : forall q z, nth_error (l1 ++ pc' :: l2) q = Some z -> q <> length l1 ->
                      nth_error (Tasks ch) q = Some z).
  { intros q z Hq Hne. rewrite Hl.
    destruct (nth_error_middle l1 l2 pc pc' q z Hq) as [[? _]|[_ ?]]; [contradiction|auto]. }
  assert (Hlen' : length (l1 ++ pc' :: l2) = Points).
  { rewrite <- Hlen, !length_app. reflexivity. }
  destruct pc as [|h|h|h n|h|r]; simpl in Hpc.
  - (* AtShoot *)
    injection Hpc as <- <- <-.
    constructor; cbn [Mutex Hits Tasks]; auto.
    + unfold holders. cbn [Tasks]. rewrite holders_app. simpl in Hmx.
      destruct (outcome p); simpl; exact Hmx.
    + rewrite written_app. destruct (outcome p); exact Hhits.
    + intros q h n Hq.
      destruct (nth_error_middle l1 l2 AtShoot _ q _ Hq) as [[_ Heq]|[_ Hq']].
      * destruct (outcome p); discriminate.
      * apply (Hsize q h n). now rewrite Hl.
    + intros q z Hq.
      destruct (nth_error_middle l1 l2 AtShoot _ q _ Hq) as [[-> ->]|[_ Hq']].
      * rewrite Hp. destruct (outcome p); reflexivity.
      * apply Hout. now rewrite Hl.
  - (* AtLock *)
    destruct (Mutex ch) eqn:Hm; [discriminate|]. injection Hpc as <- <- <-.
    constructor; cbn [Mutex Hits Tasks]; auto.
    + unfold holders. cbn [Tasks]. rewrite holders_app. simpl in Hmx |- *. lia.
    + rewrite written_app. exact Hhits.
    + intros q h' n Hq.
      destruct (nth_error_middle l1 l2 (AtLock h) _ q _ Hq) as [[_ Heq]|[_ Hq']];
        [discriminate|].
      apply (Hsize q h' n). now rewrite Hl.
    + intros q z Hq.
      destruct (nth_error_middle l1 l2 (AtLock h) _ q _ Hq) as [[-> ->]|[_ Hq']].
      * rewrite Hp. exact Hme.
      * apply Hout. now rewrite Hl.
  - (* AtSize *)
    injection Hpc as <- <- <-.
    constructor; cbn [Mutex Hits Tasks]; auto.
    + unfold holders. cbn [Tasks]. rewrite holders_app. simpl in Hmx |- *. exact Hmx.
    + rewrite written_app. exact Hhits.
    + intros q h' n Hq.
      destruct (nth_error_middle l1 l2 (AtSize h) _ q _ Hq) as [[_ Heq]|[_ Hq']].
      * now injection Heq as _ ->.
      * apply (Hsize q h' n). now rewrite Hl.
    + intros q z Hq.
      destruct (nth_error_middle l1 l2 (AtSize h) _ q _ Hq) as [[-> ->]|[_ Hq']].
      * rewrite Hp. exact Hme.
      * apply Hout. now rewrite Hl.
  - (* AtStore *)
    injection Hpc as <- <- <-.
    assert (Hn : n = length (Hits ch)).
    { apply (Hsize p h n). rewrite Hl, nth_error_app2, Hp, Nat.sub_diag by lia. reflexivity. }
    subst n. rewrite firstn_all.
    simpl in Hmx.
    assert (Hz1 : length (filter in_critical l1) = 0%nat) by (destruct (Mutex ch); lia).
    assert (Hz2 : length (filter in_critical l2) = 0%nat) by (destruct (Mutex ch); lia).
    constructor; cbn [Mutex Hits Tasks]; auto.
    + unfold holders. cbn [Tasks]. rewrite holders_app. simpl. exact Hmx.
    + rewrite written_app. simpl in Hhits |- *.
      rewrite Hhits. rewrite <- app_assoc.
      apply Permutation_app_head. symmetry. apply Permutation_cons_append.
    + intros q h' n Hq.
      destruct (nth_error_middle l1 l2 (AtStore h (length (Hits ch))) _ q _ Hq)
        as [[_ Heq]|[Hne Hq']]; [discriminate|].
      exfalso.
      destruct (Nat.lt_ge_cases q (length l1)).
      * rewrite nth_error_app1 in Hq' by lia.
        pose proof (no_holder l1 Hz1 q _ Hq'). discriminate.
      * rewrite nth_error_app2 in Hq' by lia.
        destruct (q - length l1)%nat as [|k] eqn:Hk; [lia|]. simpl in Hq'.
        pose proof (no_holder l2 Hz2 k _ Hq'). discriminate.
    + intros q z Hq.
      destruct (nth_error_middle l1 l2 (AtStore h (length (Hits ch))) _ q _ Hq)
        as [[-> ->]|[_ Hq']].
      * rewrite Hp. exact Hme.
      * apply Hout. now rewrite Hl.
  - (* AtUnlock *)
    injection Hpc as <- <- <-.
    constructor; cbn [Mutex Hits Tasks]; auto.
    + unfold holders. cbn [Tasks]. rewrite holders_app. simpl in Hmx |- *.
      destruct (Mutex ch); lia.
    + rewrite written_app. exact Hhits.
    + intros q h' n Hq.
      destruct (nth_error_middle l1 l2 (AtUnlock h) _ q _ Hq) as [[_ Heq]|[_ Hq']];
        [discriminate|].
      apply (Hsize q h' n). now rewrite Hl.
    + intros q z Hq.
      destruct (nth_error_middle l1 l2 (AtUnlock h) _ q _ Hq) as [[-> ->]|[_ Hq']].
      * rewrite Hp. exact Hme.
      * apply Hout. now rewrite Hl.
  - discriminate.
Qed.

Lemma nth_error_repeat_inv {A : Type} (x y : A) (n i : nat) :
  nth_error (repeat x n) i = Some y -> y = x /\ (i < n)%nat.
Proof.
  revert i. induction n as [|n IH]; intros [|i] Hi; simpl in Hi; try discriminate.
  - injection Hi as <-. split; [reflexivity|lia].
  - destruct (IH i Hi). split; [assumption|lia].
Qed.

Lemma no_holder_repeat (n : nat) :
  length (filter in_critical (repeat (@AtShoot Hit) n)) = 0%nat.
Proof. induction n; simpl; auto. Qed.

Lemma written_repeat (n : nat) : flat_map written (repeat (@AtShoot Hit) n) = [].
Proof. induction n; simpl; auto. Qed.

Lemma initial_channel_ok (outcome : nat -> option Hit) (Points : nat) :
  channel_ok outcome Points (initial_channel Hit Points).
Proof.
  constructor; cbn [initial_channel Mutex Hits Tasks].
  - apply repeat_length.
  - unfold holders. cbn [initial_channel Tasks]. apply no_holder_repeat.
  - rewrite written_repeat. constructor.
  - intros p h n Hp. apply nth_error_repeat_inv in Hp. destruct Hp; discriminate.
  - intros p pc Hp. apply nth_error_repeat_inv in Hp. destruct Hp as [-> _]. exact I.
Qed.

Lemma initial_ok (outcome : nat -> nat -> option Hit) (ChannelCount Points : nat) :
  system_ok outcome ChannelCount Points (initial Hit ChannelCount Points).
Proof.
  split; [apply repeat_length|].
  intros c ch Hc. apply nth_error_repeat_inv in Hc. destruct Hc as [-> _].
  apply initial_channel_ok.
Qed.

Lemma step_system_ok (outcome : nat -> nat -> option Hit) (ChannelCount Points c p : nat)
    (sys sys' : System Hit) :
  system_ok outcome ChannelCount Points sys ->
  step_system outcome c p sys = Some sys' ->
  system_ok outcome ChannelCount Points sys'.
Proof.
  intros [Hlen Hok]. unfold step_system.
  destruct (nth_error sys c) as [ch|] eqn:Hc; [|discriminate].
  destruct (step_task (outcome c) p ch) as [ch'|] eqn:Hstep; [|discriminate].
  intros Heq. injection Heq as <-. split.
  - now rewrite length_set_nth.
  - intros c' ch'' Hc'. destruct (Nat.eq_dec c c') as [<-|Hne].
    + rewrite nth_error_set_nth_eq in Hc' by (apply nth_error_Some; congruence).
      injection Hc' as <-. eapply step_task_ok; eauto.
    + rewrite nth_error_set_nth_neq in Hc' by exact Hne. auto.
Qed.

Lemma reachable_ok (outcome : nat -> nat -> option Hit) (ChannelCount Points : nat)
    (sys : System Hit) :
  reachable outcome ChannelCount Points sys -> system_ok outcome ChannelCount Points sys.
Proof.
  induction 1 as [|sys c p sys' _ IH Hstep].
  - apply initial_ok.
  - eapply step_system_ok; eauto.
Qed.

Lemma run_schedule_reachable (outcome : nat -> nat -> option Hit) (ChannelCount Points : nat)
    (sched : list (nat * nat)) (sys sys' : System Hit) :
  reachable outcome ChannelCount Points sys ->
  run_schedule outcome sched sys = Some sys' ->
  reachable outcome ChannelCount Points sys'.
Proof.
  revert sys. induction sched as [|[c p] sched IH]; intros sys Hr Hrun; simpl in Hrun.
  - now injection Hrun as <-.
  - destruct (step_system outcome c p sys) as [sys1|] eqn:Hstep; [|discriminate].
    apply (IH sys1); [|exact Hrun]. eapply reach_step; eauto.
Qed.

(** *** When every task has finished *)

Lemma written_finished (outcome : nat -> option Hit) (tasks : list (PC Hit)) (first : nat) :
  forallb is_finished tasks = true ->
  (forall p pc, nth_error tasks p = Some pc -> pc_ok (outcome (first + p)%nat) pc) ->
  flat_map written tasks =
  flat_map (fun p => option_list (outcome p)) (seq first (length tasks)).
Proof.
  revert first. induction tasks as [|pc tasks IH]; intros first Hfin Hout; [reflexivity|].
  simpl in Hfin. apply andb_prop in Hfin. destruct Hfin as [Hpc Hfin].
  cbn [flat_map length seq]. f_equal.
  - pose proof (Hout 0%nat pc eq_refl) as H0. rewrite Nat.add_0_r in H0.
    destruct pc; try discriminate. simpl in H0 |- *. now rewrite H0.
  - apply IH; [exact Hfin|].
    intros p pc' Hp. specialize (Hout (S p) pc' Hp).
    now rewrite Nat.add_succ_r in Hout.
Qed.

Lemma finished_hits (outcome : nat -> option Hit) (Points : nat) (ch : Channel Hit) :
  channel_ok outcome Points ch ->
  forallb is_finished (Tasks ch) = true ->
  Permutation (Hits ch) (flat_map (fun p => option_list (outcome p)) (seq 0 Points)).
Proof.
  intros [Hlen _ Hhits _ Hout] Hfin.
  rewrite Hhits, (written_finished outcome (Tasks ch) 0 Hfin Hout), Hlen. reflexivity.
Qed.

Lemma all_hits_length (outcome : nat -> option Hit) (first n : nat) :
  (forall p, (first <= p < first + n)%nat -> outcome p <> None) ->
  length (flat_map (fun p => option_list (outcome p)) (seq first n)) = n.
Proof.
  revert first. induction n as [|n IH]; intros first Hall; [reflexivity|].
  cbn [seq flat_map]. rewrite length_app, IH by (intros p Hp; apply Hall; lia).
  specialize (Hall first ltac:(lia)). destruct (outcome first); [reflexivity|contradiction].
Qed.

(** *** Progress and termination *)

Lemma unfinished_task (tasks : list (PC Hit)) :
  forallb is_finished tasks = false ->
  (exists p pc, nth_error tasks p = Some pc /\ (pc = AtShoot \/ in_critical pc = true)) \/
  (length (filter in_critical tasks) = 0%nat /\
   exists p h, nth_error tasks p = Some (AtLock h)).
Proof.
  induction tasks as [|pc tasks IH]; intros Hfin; [discriminate|].
  simpl in Hfin.
  destruct pc as [|h|h|h n|h|r];
    try (left; exists 0%nat; eexists; split; [reflexivity|]; simpl; auto; fail).
  - simpl in Hfin.
    destruct (forallb is_finished tasks) eqn:Hrest.
    + right. split.
      * simpl. clear IH Hfin. induction tasks as [|a tasks IHt]; [reflexivity|].
        simpl in Hrest. apply andb_prop in Hrest. destruct Hrest as [Ha Hr].
        destruct a; try discriminate. simpl. auto.
      * exists 0%nat, h. reflexivity.
    + destruct (IH eq_refl) as [(p & pc & Hp & Hpc)|(Hz & p & h' & Hp)].
      * left. exists (S p), pc. auto.
      * right. split; [simpl; exact Hz|]. exists (S p), h'. exact Hp.
  - simpl in Hfin. destruct (IH Hfin) as [(p & pc & Hp & Hpc)|(Hz & p & h' & Hp)].
    + left. exists (S p), pc. auto.
    + right. split; [simpl; exact Hz|]. exists (S p), h'. exact Hp.
Qed.

Lemma step_task_enabled (outcome : nat -> option Hit) (p : nat) (ch : Channel Hit) pc :
  nth_error (Tasks ch) p = Some pc ->
  step_pc (outcome p) ch pc <> None ->
  exists ch', step_task outcome p ch = Some ch'.
Proof.
  intros Hp Hs. unfold step_task. rewrite Hp.
  destruct (step_pc (outcome p) ch pc) as [[[m v] pc']|]; [eauto|contradiction].
Qed.

Lemma channel_progress (outcome : nat -> option Hit) (Points : nat) (ch : Channel Hit) :
  channel_ok outcome Points ch ->
  forallb is_finished (Tasks ch) = false ->
  exists p ch', step_task outcome p ch = Some ch'.
Proof.
  intros Hok Hfin.
  destruct (unfinished_task _ Hfin) as [(p & pc & Hp & Hpc)|(Hz & p & h & Hp)].
  - exists p. apply (step_task_enabled outcome p ch pc Hp).
    destruct Hpc as [->|Hcrit]; [discriminate|].
    destruct pc; try discriminate; simpl; discriminate.
  - exists p. apply (step_task_enabled outcome p ch (AtLock h) Hp).
    pose proof (ok_mutex Hok) as Hmx. unfold holders in Hmx. rewrite Hz in Hmx.
    simpl. destruct (Mutex ch); [discriminate|discriminate].
Qed.

Lemma system_progress (outcome : nat -> nat -> option Hit) (ChannelCount Points : nat)
    (sys : System Hit) :
  system_ok outcome ChannelCount Points sys ->
  terminal sys = false ->
  exists c p sys', step_system outcome c p sys = Some sys'.
Proof.
  intros [_ Hok]. unfold terminal.
  assert (Hfind : forallb (fun ch => forallb is_finished (Tasks ch)) sys = false ->
            exists c ch, nth_error sys c = Some ch /\
                         forallb is_finished (Tasks ch) = false).
  { clear Hok. induction sys as [|ch sys IH]; intros Hf; [discriminate|].
    simpl in Hf. destruct (forallb is_finished (Tasks ch)) eqn:Hch.
    - destruct (IH Hf) as (c & ch' & Hc & Hc'). exists (S c), ch'. auto.
    - exists 0%nat, ch. auto. }
  intros Hterm. destruct (Hfind Hterm) as (c & ch & Hc & Hfin).
  destruct (channel_progress (outcome c) Points ch (Hok c ch Hc) Hfin) as (p & ch' & Hstep).
  exists c, p. unfold step_system. rewrite Hc, Hstep. eauto.
Qed.

Lemma step_pc_remaining (o : option Hit) (ch : Channel Hit) pc m v pc' :
  step_pc o ch pc = Some (m, v, pc') -> (remaining pc' < remaining pc)%nat.
Proof.
  destruct pc; simpl; try discriminate.
  - intros Heq. injection Heq as _ _ <-. destruct o; simpl; lia.
  - destruct (Mutex ch); [discriminate|]. intros Heq. injection Heq as _ _ <-. simpl; lia.
  - intros Heq. injection Heq as _ _ <-. simpl; lia.
  - intros Heq. injection Heq as _ _ <-. simpl; lia.
  - intros Heq. injection Heq as _ _ <-. simpl; lia.
Qed.

Lemma step_system_work (outcome : nat -> nat -> option Hit) (c p : nat)
    (sys sys' : System Hit) :
  step_system outcome c p sys = Some sys' -> (work_left sys' < work_left sys)%nat.
Proof.
  unfold step_system.
  destruct (nth_error sys c) as [ch|] eqn:Hc; [|discriminate].
  destruct (step_task (outcome c) p ch) as [ch'|] eqn:Hstep; [|discriminate].
  intros Heq. injection Heq as <-.
  destruct (step_task_inv _ _ _ _ Hstep) as (l1 & pc & l2 & m & v & pc' & Hl & Hp & Hpc & ->).
  destruct (nth_error_split _ _ Hc) as (s1 & s2 & Hs & Hlen).
  rewrite Hs, <- Hlen, set_nth_app. unfold work_left.
  rewrite !map_app, !list_sum_app. cbn [map Tasks].
  change (list_sum (?x :: ?l)) with (x + list_sum l)%nat.
  rewrite Hl, !remaining_app.
  pose proof (step_pc_remaining _ _ _ _ _ _ Hpc). lia.
Qed.

Lemma terminates (outcome : nat -> nat -> option Hit) (ChannelCount Points : nat) (n : nat) :
  forall sys, (work_left sys <= n)%nat ->
    system_ok outcome ChannelCount Points sys ->
    exists sched sys', run_schedule outcome sched sys = Some sys' /\ terminal sys' = true.
Proof.
  induction n as [|n IH]; intros sys Hwork Hok.
  - destruct (terminal sys) eqn:Hterm.
    + exists [], sys. auto.
    + destruct (system_progress _ _ _ _ Hok Hterm) as (c & p & sys' & Hstep).
      pose proof (step_system_work _ _ _ _ _ Hstep). lia.
  - destruct (terminal sys) eqn:Hterm.
    + exists [], sys. auto.
    + destruct (system_progress _ _ _ _ Hok Hterm) as (c & p & sys' & Hstep).
      pose proof (step_system_work _ _ _ _ _ Hstep) as Hless.
      destruct (IH sys') as (sched & sys'' & Hrun & Hfin); [lia| |].
      * eapply step_system_ok; eauto.
      * exists ((c, p) :: sched), sys''. simpl. rewrite Hstep. auto.
Qed.

(** Two tasks inside [emplace_back] at once overwrite each other: the
    second store lands on the slot of the first.  The invariant excludes
    such a state. *)
Lemma unprotected_stores_overwrite (a b : Hit) :
  let ch := {| Mutex := true; Hits := []; Tasks := [AtStore a 0; AtStore b 0] |} in
  exists ch',
    run_schedule (fun _ _ => None) [(0, 0); (0, 1)]%nat [ch] = Some [ch'] /\
    Hits ch' = [b].
Proof. eexists. split; reflexivity. Qed.

End Interleaving.

Section Link.

Import Concurrent.

Context {F : Type} `{FO : FloatOps F}.
Variables FTransform FRotator : Type.

Lemma RayOutcome_always_hits (E : Engine F FTransform FRotator) (s : ARayCastRawLidar F)
    (cur stride : F) (c p : nat) :
  (forall v h, PreprocessRay E v h = true) ->
  (forall a b, bBlockingHit (LineTraceSingleByChannel E a b) = true) ->
  RayOutcome E s cur stride c p <> None.
Proof.
  intros Hpre Hhit. unfold RayOutcome, RayAngles, ShootLaser.
  rewrite Hpre, Hhit. discriminate.
Qed.

(** C9. The interleaved ray tasks of a step are compared with the
    parallel phase of [SimulateLidar] itself, the two [ParallelFor] loops
    over [ChannelTask] and [PointTask] with [WritePointAsync], run from the
    state [ResetRecordedHits] leaves.  In every state the tasks can reach,
    at most one task of a channel is between [Mutex.Lock()] and
    [Mutex.Unlock()], and exactly when the mutex of the channel is held.
    Once all tasks have finished, whatever the interleaving, there is one
    collection per entry of [RecordedHits], and the collection of each
    channel is a rearrangement of the entry that the loops record for it:
    no hit is lost, none is added; with every ray cast and hitting, both
    have [Points] entries.  The tasks can always run to the end, and every
    step brings the end nearer; a task waiting for the mutex of its
    channel proceeds as soon as that mutex is free, whatever the other
    channels hold. *)
Theorem parallel_casting_loses_no_hit (E : Engine F FTransform FRotator)
    (s : ARayCastRawLidar F) (cur stride : F) (ChannelCount Points : nat)
    (sys : System (FHitResult F)) :
  let outcome := RayOutcome E s cur stride in
  (ChannelCount <= Channels (Description s))%nat ->
  reachable outcome ChannelCount Points sys ->
  (forall c ch, nth_error sys c = Some ch ->
     holders ch = if Mutex ch then 1%nat else 0%nat) /\
  (terminal sys = true ->
   exists s2 trace,
     ParallelFor ChannelCount (ChannelTask E cur stride Points)
       (ResetRecordedHits ChannelCount Points s, []) = Ok (s2, trace) /\
     length sys = length (RecordedHits s2) /\
     forall c ch, nth_error sys c = Some ch ->
       Permutation (Hits ch) (nth c (RecordedHits s2) []) /\
       ((forall v h, PreprocessRay E v h = true) ->
        (forall a b, bBlockingHit (LineTraceSingleByChannel E a b) = true) ->
        length (Hits ch) = Points /\ length (nth c (RecordedHits s2) []) = Points)) /\
  (exists sched sys',
     run_schedule outcome sched sys = Some sys' /\ terminal sys' = true) /\
  (forall c p sys', step_system outcome c p sys = Some sys' ->
     (work_left sys' < work_left sys)%nat) /\
  (forall c p ch h, nth_error sys c = Some ch ->
     nth_error (Tasks ch) p = Some (AtLock h) -> Mutex ch = false ->
     exists sys', step_system outcome c p sys = Some sys').
Proof.
  intros outcome Hch Hreach.
  pose proof (reachable_ok _ _ _ _ Hreach) as Hok.
  split; [|split; [|split; [|split]]].
  - intros c ch Hc. destruct Hok as [_ Hok]. apply (ok_mutex (Hok c ch Hc)).
  - intros Hterm. destruct Hok as [Hlen Hok].
    eexists. eexists. split; [apply cast_phase; exact Hch|].
    cbn [with_hits RecordedHits]. split; [now rewrite length_map, length_seq|].
    intros c ch Hc.
    assert (Hlt : (c < ChannelCount)%nat).
    { rewrite <- Hlen. apply nth_error_Some. congruence. }
    rewrite (nth_indep _ [] (ExpectedHits E s cur stride Points 0))
      by (rewrite length_map, length_seq; exact Hlt).
    rewrite (map_nth (ExpectedHits E s cur stride Points)).
    rewrite seq_nth by exact Hlt. cbn [Nat.add].
    assert (Hfin : forallb is_finished (Tasks ch) = true).
    { unfold terminal in Hterm. rewrite forallb_forall in Hterm.
      apply Hterm. eapply nth_error_In; eauto. }
    pose proof (finished_hits _ _ _ (Hok c ch Hc) Hfin) as Hperm.
    split; [exact Hperm|].
    intros Hpre Hhit.
    assert (Hall : length (ExpectedHits E s cur stride Points c) = Points).
    { apply all_hits_length. intros p _. now apply RayOutcome_always_hits. }
    split; [|exact Hall].
    rewrite (Permutation_length Hperm). exact Hall.
  - apply (terminates outcome ChannelCount Points (work_left sys) sys (le_n _) Hok).
  - intros c p sys' Hstep. eapply step_system_work; eauto.
  - intros c p ch h Hc Hp Hm. unfold step_system, step_task. rewrite Hc, Hp.
    simpl. rewrite Hm. eauto.
Qed.

End Link.

Lemma parallel_casting_loses_no_hit_witness :
  let sensor := Scene.after_set (Scene.description 2 (Binary32.of_int 1)) in
  let outcome :=
    RayOutcome Scene.wall_engine sensor (Binary32.of_int 0) (Binary32.decimal 45 2) in
  exists locked finished s2 trace,
    Concurrent.run_schedule outcome Concurrent.both_locked (Concurrent.initial _ 2 2) =
      Some locked /\
    map (@Concurrent.Mutex _) locked = [true; true] /\
    Concurrent.run_schedule outcome Concurrent.interleaved (Concurrent.initial _ 2 2) =
      Some finished /\
    Concurrent.terminal finished = true /\
    ParallelFor 2
      (ChannelTask Scene.wall_engine (Binary32.of_int 0) (Binary32.decimal 45 2) 2)
      (ResetRecordedHits 2 2 sensor, []) = Ok (s2, trace) /\
    forall c ch, nth_error finished c = Some ch ->
      length (Concurrent.Hits ch) = 2%nat /\ length (nth c (RecordedHits s2) []) = 2%nat.
Proof.
  intros sensor outcome.
  destruct (Concurrent.run_schedule outcome Concurrent.both_locked (Concurrent.initial _ 2 2))
    as [locked|] eqn:Hlocked; [|vm_compute in Hlocked; discriminate Hlocked].
  destruct (Concurrent.run_schedule outcome Concurrent.interleaved (Concurrent.initial _ 2 2))
    as [finished|] eqn:Hrun; [|vm_compute in Hrun; discriminate Hrun].
  assert (Hterm : Concurrent.terminal finished = true).
  { vm_compute in Hrun. injection Hrun as <-. reflexivity. }
  destruct (parallel_casting_loses_no_hit Scene.Pose Scene.Rot Scene.wall_engine sensor
              (Binary32.of_int 0) (Binary32.decimal 45 2) 2 2 finished
              ltac:(vm_compute; lia)
              (run_schedule_reachable outcome 2 2 Concurrent.interleaved _ finished
                 (Concurrent.reach_initial outcome 2 2) Hrun))
    as (_ & Hfinished & _).
  destruct (Hfinished Hterm) as (s2 & trace & Hcast & _ & Hrows).
  exists locked, finished, s2, trace. split; [reflexivity|]. split.
  { vm_compute in Hlocked. injection Hlocked as <-. reflexivity. }
  split; [reflexivity|]. split; [exact Hterm|]. split; [exact Hcast|].
  intros c ch Hc. destruct (Hrows c ch Hc) as [_ Hcount].
  apply Hcount; reflexivity.
Defined.

(** * Further properties *)

(** ** The outcome of a step *)

Section StepOutcome.

Context {F : Type} `{FM : FloatMath F}.
Variables FTransform FRotator : Type.

Local Abbreviation Engine := (Engine F FTransform FRotator).
Local Abbreviation Sensor := (ARayCastRawLidar F).

Lemma ComputeRawDetection_cases (E : Engine) (hit : FHitResult F) (T : FTransform) :
  if null_info_hit E hit
  then ComputeRawDetection E hit T = Undefined
  else exists det, ComputeRawDetection E hit T = Ok det.
Proof.
  unfold null_info_hit, ComputeRawDetection.
  destruct (Actor hit) as [a|]; [|eauto].
  destruct (IsValid (RegistryFind E a)); [|simpl; eauto].
  destruct (GetActorInfo (RegistryFind E a)) as [info|]; simpl; [|reflexivity].
  destruct (length (SemanticTags info) =? 1)%nat; eauto.
Qed.

Lemma SaveChannel_cases (E : Engine) (T : FTransform) (hits : list (FHitResult F))
    (data : FLidarRawData F) :
  if existsb (null_info_hit E) hits
  then SaveChannel E T hits data = Undefined
  else exists dets,
      Detections E T hits dets /\
      SaveChannel E T hits data =
      Ok {| HorizontalAngle := HorizontalAngle data;
            PointCounts := PointCounts data;
            SerPoints := SerPoints data ++ dets |}.
Proof.
  revert data. induction hits as [|hit hits IH]; intros data.
  - simpl. exists []. split; [constructor|]. rewrite app_nil_r. now destruct data.
  - cbn [existsb SaveChannel].
    pose proof (ComputeRawDetection_cases E hit T) as Hhit.
    destruct (null_info_hit E hit).
    + simpl. now rewrite Hhit.
    + destruct Hhit as [det Hdet]. rewrite Hdet. cbn [bind orb].
      specialize (IH (WritePointSync det data)).
      destruct (existsb (null_info_hit E) hits); [exact IH|].
      destruct IH as (dets & Hdets & Hsave).
      exists (det :: dets). split; [now constructor|].
      rewrite Hsave. unfold WritePointSync. cbn. now rewrite <- app_assoc.
Qed.

Lemma SaveChannel_app (E : Engine) (T : FTransform) (a b : list (FHitResult F))
    (data : FLidarRawData F) :
  SaveChannel E T (a ++ b) data =
  (data' <- SaveChannel E T a data ;; SaveChannel E T b data').
Proof.
  revert data. induction a as [|hit a IH]; intros data; [reflexivity|].
  cbn [app SaveChannel].
  destruct (ComputeRawDetection E hit T) as [det| |]; cbn [bind]; auto.
Qed.

Lemma SaveChannels_concat (E : Engine) (T : FTransform) (s : Sensor)
    (pre rows : list (list (FHitResult F))) (data : FLidarRawData F) :
  SaveChannels E T (with_hits s (pre ++ rows)) (length rows) (length pre) data =
  SaveChannel E T (concat rows) data.
Proof.
  revert pre data. induction rows as [|row rows IH]; intros pre data; [reflexivity|].
  cbn [SaveChannels length concat]. rewrite at_channel_app. cbn [bind].
  rewrite SaveChannel_app.
  destruct (SaveChannel E T row data) as [data'| |]; cbn [bind]; auto.
  replace (pre ++ row :: rows) with ((pre ++ [row]) ++ rows) by now rewrite <- app_assoc.
  replace (S (length pre)) with (length (pre ++ [row])) by (rewrite length_app; simpl; lia).
  apply IH.
Qed.

Lemma ComputeAndSaveDetections_unfold (E : Engine) (T : FTransform) (s : Sensor)
    (rows : list (list (FHitResult F))) :
  length rows = Channels (Description s) ->
  ComputeAndSaveDetections E T (with_hits s rows) =
  (data <- SaveChannel E T (concat rows)
             (ResetSerPoints (map (@length _) rows) (LidarRawData s)) ;;
   Ok {| Description := Description s;
         LaserAngles := LaserAngles s;
         LidarRawData := data;
         RecordedHits := rows |}).
Proof.
  intros Hlen. unfold ComputeAndSaveDetections. cbn [with_hits Description].
  pose proof (CountChannels_spec s [] rows) as Hcount.
  pose proof (SaveChannels_concat E T s [] rows) as Hsave.
  cbn [app length] in Hcount, Hsave.
  rewrite <- Hlen, Hcount. cbn [bind]. cbn [LidarRawData with_hits].
  rewrite Hsave. reflexivity.
Qed.

(** The reference description of a casting step. *)
Lemma SimulateLidar_unfold (E : Engine) (DeltaTime : F) (s : Sensor) (Points : nat) :
  PointsToScanWithOneLaser (Description s) DeltaTime = Some Points ->
  (0 < Points)%nat ->
  length (LaserAngles s) = Channels (Description s) ->
  let cur := ToDegrees (GetHorizontalAngle (LidarRawData s)) in
  let dist := fmul (fmul (RotationFrequency (Description s)) (of_Z 360)) DeltaTime in
  let stride := fdiv dist (of_uint32 Points) in
  let hits := map (ExpectedHits E s cur stride Points) (seq 0 (Channels (Description s))) in
  SimulateLidar E DeltaTime s =
  (data <- SaveChannel E (GetTransform E) (concat hits)
             (ResetSerPoints (map (@length _) hits) (LidarRawData s)) ;;
   Ok ({| Description := Description s;
          LaserAngles := LaserAngles s;
          LidarRawData :=
            SetHorizontalAngle (ToRadians (fmod (fadd cur dist) (of_Z 360))) data;
          RecordedHits := hits |},
       flat_map (ExpectedRays E s cur stride Points) (seq 0 (Channels (Description s))))).
Proof.
  intros Hbudget HP Hlen cur dist stride hits.
  unfold SimulateLidar. rewrite Hbudget.
  destruct (Points <=? 0)%nat eqn:Hz; [apply Nat.leb_le in Hz; lia|].
  unfold check. rewrite Hlen, Nat.eqb_refl.
  fold cur. fold dist. fold stride.
  rewrite cast_phase by apply le_n. cbn [bind]. fold hits.
  rewrite ComputeAndSaveDetections_unfold
    by (unfold hits; now rewrite length_map, length_seq).
  destruct (SaveChannel E (GetTransform E) (concat hits) _) as [data| |]; reflexivity.
Qed.

Lemma SaveChannel_no_check (E : Engine) (T : FTransform) (hits : list (FHitResult F))
    (data : FLidarRawData F) (w : string) :
  SaveChannel E T hits data <> CheckFailed w.
Proof.
  pose proof (SaveChannel_cases E T hits data) as H0.
  destruct (existsb (null_info_hit E) hits).
  - rewrite H0. discriminate.
  - destruct H0 as (dets & _ & ->). discriminate.
Qed.

(** What an [Ok] outcome of a casting step tells. *)
Lemma SimulateLidar_ok_inv (E : Engine) (DeltaTime : F) (s s' : Sensor) (Points : nat)
    (trace : list (Event F)) :
  PointsToScanWithOneLaser (Description s) DeltaTime = Some Points ->
  (0 < Points)%nat ->
  SimulateLidar E DeltaTime s = Ok (s', trace) ->
  let cur := ToDegrees (GetHorizontalAngle (LidarRawData s)) in
  let dist := fmul (fmul (RotationFrequency (Description s)) (of_Z 360)) DeltaTime in
  let stride := fdiv dist (of_uint32 Points) in
  let hits := map (ExpectedHits E s cur stride Points) (seq 0 (Channels (Description s))) in
  length (LaserAngles s) = Channels (Description s) /\
  existsb (null_info_hit E) (concat hits) = false /\
  exists dets,
    Detections E (GetTransform E) (concat hits) dets /\
    s' = {| Description := Description s;
            LaserAngles := LaserAngles s;
            LidarRawData :=
              {| HorizontalAngle := ToRadians (fmod (fadd cur dist) (of_Z 360));
                 PointCounts := map (@length _) hits;
                 SerPoints := dets |};
            RecordedHits := hits |} /\
    trace = flat_map (ExpectedRays E s cur stride Points) (seq 0 (Channels (Description s))).
Proof.
  intros Hbudget HP Hok cur dist stride hits.
  assert (Hlen : length (LaserAngles s) = Channels (Description s)).
  { destruct (Nat.eq_dec (Channels (Description s)) (length (LaserAngles s))) as [He|Hne];
      [now symmetry|].
    exfalso. unfold SimulateLidar in Hok. rewrite Hbudget in Hok.
    destruct (Points <=? 0)%nat eqn:Hz; [apply Nat.leb_le in Hz; lia|].
    unfold check in Hok. apply Nat.eqb_neq in Hne. rewrite Hne in Hok. discriminate. }
  split; [exact Hlen|].
  rewrite (SimulateLidar_unfold E DeltaTime s Points Hbudget HP Hlen) in Hok.
  fold cur dist stride hits in Hok.
  pose proof (SaveChannel_cases E (GetTransform E) (concat hits)
                (ResetSerPoints (map (@length _) hits) (LidarRawData s))) as Hsave.
  destruct (existsb (null_info_hit E) (concat hits)).
  - rewrite Hsave in Hok. discriminate.
  - split; [reflexivity|]. destruct Hsave as (dets & Hdets & Hsave).
    rewrite Hsave in Hok. cbn in Hok. injection Hok as <- <-.
    exists dets. repeat split; auto.
Qed.

(** A tick keeps the description and the beam angles, and
    fails no check on a sensor whose beam array has one angle per
    channel. *)
Lemma Tick_keeps_configuration (E : Engine) (DeltaTime : F) (s : Sensor) :
  length (LaserAngles s) = Channels (Description s) ->
  match Tick E DeltaTime s with
  | Ok (s', _) => Description s' = Description s /\ LaserAngles s' = LaserAngles s
  | CheckFailed _ => False
  | Undefined => True
  end.
Proof.
  intros Hlen. unfold Tick.
  destruct (PointsToScanWithOneLaser (Description s) DeltaTime) as [[|P]|] eqn:Hb.
  - unfold SimulateLidar. rewrite Hb. cbn. auto.
  - rewrite (SimulateLidar_unfold E DeltaTime s (S P) Hb ltac:(lia) Hlen).
    destruct (SaveChannel _ _ _ _) as [data|w|] eqn:Hsave; cbn; auto.
    now apply SaveChannel_no_check in Hsave.
  - unfold SimulateLidar. rewrite Hb. exact I.
Qed.

(** X1. A sensor configured by [Set] fails no [check] in any sequence of
    ticks, and every tick that returns leaves the description and the
    beam angles as [Set] built them. *)
Theorem Set_then_ticks_fail_no_check (d : FLidarDescription F) (s s0 : Sensor)
    (steps : list (Engine * F)) :
  Set_ d s = Ok s0 ->
  match Ticks steps s0 with
  | Ok (s', _) => Description s' = d /\ LaserAngles s' = LaserAngles s0
  | CheckFailed _ => False
  | Undefined => True
  end.
Proof.
  intros Hset. apply Set_configured in Hset. destruct Hset as [[_ Hlen] Hd].
  revert s0 Hlen Hd. induction steps as [|[E dt] steps IH]; intros s0 Hlen Hd.
  - cbn. auto.
  - cbn [Ticks]. pose proof (Tick_keeps_configuration E dt s0 Hlen) as Htick.
    destruct (Tick E dt s0) as [[s1 tr1]| |]; cbn [bind]; auto.
    destruct Htick as [Hd1 Hl1].
    specialize (IH s1 ltac:(congruence) ltac:(congruence)).
    destruct (Ticks steps s1) as [[s2 tr2]| |]; cbn [bind]; auto.
    destruct IH as [Hd2 Hl2]. split; congruence.
Qed.

Lemma ExpectedHits_ext (E : Engine) (s1 s2 : Sensor) (cur stride : F) (Points c : nat) :
  Description s1 = Description s2 ->
  LaserAngles s1 = LaserAngles s2 ->
  ExpectedHits E s1 cur stride Points c = ExpectedHits E s2 cur stride Points c.
Proof.
  intros Hd Hl. unfold ExpectedHits, RayOutcome, RayAngles, ShootLaser.
  now rewrite Hd, Hl.
Qed.

Lemma ExpectedRays_ext (E : Engine) (s1 s2 : Sensor) (cur stride : F) (Points c : nat) :
  LaserAngles s1 = LaserAngles s2 ->
  ExpectedRays E s1 cur stride Points c = ExpectedRays E s2 cur stride Points c.
Proof.
  intros Hl. unfold ExpectedRays, RayEvents, RayAngles. now rewrite Hl.
Qed.

(** X2. A step that casts rays depends on the sensor it starts from only
    through the description, the beam angles and the sweep angle: the
    hits and the detections of earlier steps have no influence. *)
Theorem SimulateLidar_discards_previous_step (E : Engine) (DeltaTime : F) (s1 s2 : Sensor)
    (Points : nat) :
  Description s1 = Description s2 ->
  LaserAngles s1 = LaserAngles s2 ->
  GetHorizontalAngle (LidarRawData s1) = GetHorizontalAngle (LidarRawData s2) ->
  PointsToScanWithOneLaser (Description s1) DeltaTime = Some Points ->
  (0 < Points)%nat ->
  SimulateLidar E DeltaTime s1 = SimulateLidar E DeltaTime s2.
Proof.
  intros Hd Hl Ha Hb HP.
  destruct (Nat.eq_dec (Channels (Description s1)) (length (LaserAngles s1))) as [He|Hne].
  - rewrite (SimulateLidar_unfold E DeltaTime s1 Points Hb HP (eq_sym He)).
    rewrite (SimulateLidar_unfold E DeltaTime s2 Points)
      by (try rewrite <- Hd; try rewrite <- Hl; auto).
    rewrite <- Hd, <- Hl, <- Ha.
    assert (Hhits : map (ExpectedHits E s1 (ToDegrees (GetHorizontalAngle (LidarRawData s1)))
                      (fdiv (fmul (fmul (RotationFrequency (Description s1)) (of_Z 360))
                                  DeltaTime) (of_uint32 Points)) Points)
                      (seq 0 (Channels (Description s1))) =
                    map (ExpectedHits E s2 (ToDegrees (GetHorizontalAngle (LidarRawData s1)))
                      (fdiv (fmul (fmul (RotationFrequency (Description s1)) (of_Z 360))
                                  DeltaTime) (of_uint32 Points)) Points)
                      (seq 0 (Channels (Description s1)))).
    { apply map_ext. intros c. now apply ExpectedHits_ext. }
    assert (Hrays : flat_map (ExpectedRays E s1 (ToDegrees (GetHorizontalAngle (LidarRawData s1)))
                      (fdiv (fmul (fmul (RotationFrequency (Description s1)) (of_Z 360))
                                  DeltaTime) (of_uint32 Points)) Points)
                      (seq 0 (Channels (Description s1))) =
                    flat_map (ExpectedRays E s2 (ToDegrees (GetHorizontalAngle (LidarRawData s1)))
                      (fdiv (fmul (fmul (RotationFrequency (Description s1)) (of_Z 360))
                                  DeltaTime) (of_uint32 Points)) Points)
                      (seq 0 (Channels (Description s1)))).
    { apply flat_map_ext. intros c. now apply ExpectedRays_ext. }
    rewrite <- Hhits, <- Hrays.
    replace (ResetSerPoints _ (LidarRawData s2))
      with (ResetSerPoints
              (map (@length _)
                 (map (ExpectedHits E s1 (ToDegrees (GetHorizontalAngle (LidarRawData s1)))
                      (fdiv (fmul (fmul (RotationFrequency (Description s1)) (of_Z 360))
                                  DeltaTime) (of_uint32 Points)) Points)
                      (seq 0 (Channels (Description s1)))))
              (LidarRawData s1)).
    + reflexivity.
    + unfold ResetSerPoints. unfold GetHorizontalAngle in Ha. now rewrite Ha.
  - unfold SimulateLidar. rewrite <- Hd, <- Hl, Hb.
    destruct (Points <=? 0)%nat eqn:Hz; [apply Nat.leb_le in Hz; lia|].
    unfold check. apply Nat.eqb_neq in Hne. now rewrite Hne.
Qed.

Lemma ShootLaser_blocking (E : Engine) (s : Sensor) (v h : F) (hit : FHitResult F) :
  ShootLaser E s v h = Some hit -> bBlockingHit hit = true.
Proof.
  unfold ShootLaser.
  destruct (bBlockingHit (LineTraceSingleByChannel E _ _)) eqn:Hb; [|discriminate].
  intros Heq. injection Heq as <-. exact Hb.
Qed.

Lemma RayOutcome_blocking (E : Engine) (s : Sensor) (cur stride : F) (c p : nat)
    (hit : FHitResult F) :
  RayOutcome E s cur stride c p = Some hit -> bBlockingHit hit = true.
Proof.
  unfold RayOutcome, RayAngles. destruct (PreprocessRay E _ _); [|discriminate].
  apply ShootLaser_blocking.
Qed.

Lemma length_flat_map_le {A B : Type} (f : A -> list B) (l : list A) (k : nat) :
  (forall a, In a l -> length (f a) <= k)%nat ->
  (length (flat_map f l) <= length l * k)%nat.
Proof.
  induction l as [|a l IH]; intros Hk; [simpl; lia|].
  cbn [flat_map length]. rewrite length_app.
  pose proof (Hk a (or_introl eq_refl)).
  specialize (IH (fun b Hb => Hk b (or_intror Hb))). simpl. lia.
Qed.

Lemma length_flat_map_eq {A B : Type} (f : A -> list B) (l : list A) (k : nat) :
  (forall a, In a l -> length (f a) = k)%nat ->
  (length (flat_map f l) = length l * k)%nat.
Proof.
  induction l as [|a l IH]; intros Hk; [reflexivity|].
  cbn [flat_map length]. rewrite length_app.
  rewrite (Hk a (or_introl eq_refl)), (IH (fun b Hb => Hk b (or_intror Hb))). simpl. lia.
Qed.

Lemma ExpectedHits_length (E : Engine) (s : Sensor) (cur stride : F) (Points c : nat) :
  (length (ExpectedHits E s cur stride Points c) <= Points)%nat.
Proof.
  unfold ExpectedHits.
  pose proof (length_flat_map_le
                (fun p => option_list (RayOutcome E s cur stride c p)) (seq 0 Points) 1) as H0.
  rewrite length_seq, Nat.mul_1_r in H0. apply H0.
  intros p _. destruct (RayOutcome E s cur stride c p); simpl; lia.
Qed.

Lemma ExpectedHits_blocking (E : Engine) (s : Sensor) (cur stride : F) (Points c : nat) :
  Forall (fun hit => bBlockingHit hit = true) (ExpectedHits E s cur stride Points c).
Proof.
  apply Forall_forall. intros hit Hin. unfold ExpectedHits in Hin.
  apply in_flat_map in Hin. destruct Hin as (p & _ & Hin).
  destruct (RayOutcome E s cur stride c p) as [hit'|] eqn:Hout; [|contradiction].
  destruct Hin as [<-|[]]. eapply RayOutcome_blocking; eauto.
Qed.

(** X3. After a step that casts rays there is one list of recorded hits
    per channel; none is longer than the ray budget, and every recorded
    hit is a blocking hit. *)
Theorem SimulateLidar_recorded_hits (E : Engine) (DeltaTime : F) (s s' : Sensor)
    (Points : nat) (trace : list (Event F)) :
  PointsToScanWithOneLaser (Description s) DeltaTime = Some Points ->
  (0 < Points)%nat ->
  SimulateLidar E DeltaTime s = Ok (s', trace) ->
  length (RecordedHits s') = Channels (Description s) /\
  Forall (fun row => (length row <= Points)%nat /\
                     Forall (fun hit => bBlockingHit hit = true) row)
         (RecordedHits s').
Proof.
  intros Hb HP Hok.
  destruct (SimulateLidar_ok_inv E DeltaTime s s' Points trace Hb HP Hok)
    as (_ & _ & dets & _ & -> & _).
  cbn [RecordedHits]. split; [now rewrite length_map, length_seq|].
  apply Forall_forall. intros row Hrow. apply in_map_iff in Hrow.
  destruct Hrow as (c & <- & _). split.
  - apply ExpectedHits_length.
  - apply ExpectedHits_blocking.
Qed.

Lemma length_concat_sum {A : Type} (rows : list (list A)) :
  length (concat rows) = list_sum (map (@length _) rows).
Proof.
  induction rows as [|row rows IH]; [reflexivity|].
  cbn [concat map list_sum]. rewrite length_app, IH. reflexivity.
Qed.

(** X4. After a step that casts rays the point counts of the buffer are
    the sizes of the channels' hit lists, the buffer holds the detection
    of every recorded hit in channel order, and so as many detections as
    the counts add up to. *)
Theorem SimulateLidar_buffer_matches_hits (E : Engine) (DeltaTime : F) (s s' : Sensor)
    (Points : nat) (trace : list (Event F)) :
  PointsToScanWithOneLaser (Description s) DeltaTime = Some Points ->
  (0 < Points)%nat ->
  SimulateLidar E DeltaTime s = Ok (s', trace) ->
  PointCounts (LidarRawData s') = map (@length _) (RecordedHits s') /\
  Detections E (GetTransform E) (concat (RecordedHits s')) (SerPoints (LidarRawData s')) /\
  length (SerPoints (LidarRawData s')) = list_sum (PointCounts (LidarRawData s')).
Proof.
  intros Hb HP Hok.
  destruct (SimulateLidar_ok_inv E DeltaTime s s' Points trace Hb HP Hok)
    as (_ & _ & dets & Hdets & -> & _).
  cbn [RecordedHits LidarRawData PointCounts SerPoints].
  split; [reflexivity|]. split; [exact Hdets|].
  rewrite <- length_concat_sum. symmetry. eapply Forall2_length. exact Hdets.
Qed.

Lemma ExpectedRays_length (E : Engine) (s : Sensor) (cur stride : F) (Points c : nat) :
  (length (ExpectedRays E s cur stride Points c) <= Points)%nat /\
  ((forall v h, PreprocessRay E v h = true) ->
   length (ExpectedRays E s cur stride Points c) = Points).
Proof.
  unfold ExpectedRays. split.
  - pose proof (length_flat_map_le (RayEvents E s cur stride c) (seq 0 Points) 1) as H0.
    rewrite length_seq, Nat.mul_1_r in H0. apply H0.
    intros p _. unfold RayEvents, RayAngles. destruct (PreprocessRay E _ _); simpl; lia.
  - intros Hpre.
    pose proof (length_flat_map_eq (RayEvents E s cur stride c) (seq 0 Points) 1) as H0.
    rewrite length_seq, Nat.mul_1_r in H0. apply H0.
    intros p _. unfold RayEvents, RayAngles. now rewrite Hpre.
Qed.

(** X5. A step that casts rays traces at most [ChannelCount * Points]
    rays and does nothing else to the outside; it traces exactly that
    many when the pre-filter vetoes none. *)
Theorem SimulateLidar_ray_count (E : Engine) (DeltaTime : F) (s s' : Sensor)
    (Points : nat) (trace : list (Event F)) :
  PointsToScanWithOneLaser (Description s) DeltaTime = Some Points ->
  (0 < Points)%nat ->
  SimulateLidar E DeltaTime s = Ok (s', trace) ->
  forallb is_ray_cast trace = true /\
  (length trace <= Channels (Description s) * Points)%nat /\
  ((forall v h, PreprocessRay E v h = true) ->
   length trace = (Channels (Description s) * Points)%nat).
Proof.
  intros Hb HP Hok.
  destruct (SimulateLidar_ok_inv E DeltaTime s s' Points trace Hb HP Hok)
    as (_ & _ & dets & _ & _ & ->).
  split; [|split].
  - apply forallb_forall. intros e He. apply in_flat_map in He.
    destruct He as (c & _ & He). unfold ExpectedRays in He.
    apply in_flat_map in He. destruct He as (p & _ & He).
    unfold RayEvents, RayAngles in He. destruct (PreprocessRay E _ _); [|contradiction].
    destruct He as [<-|[]]. reflexivity.
  - match goal with |- (length (flat_map ?f ?l) <= _)%nat =>
      pose proof (length_flat_map_le f l Points) as H0 end.
    rewrite length_seq in H0. apply H0. intros c _. apply ExpectedRays_length.
  - intros Hpre.
    match goal with |- length (flat_map ?f ?l) = _ =>
      pose proof (length_flat_map_eq f l Points) as H0 end.
    rewrite length_seq in H0. apply H0. intros c _. now apply ExpectedRays_length.
Qed.

(** X7. A step that casts rays on a sensor with one beam per channel
    fails no check, and is undefined exactly when one of its rays hits an
    actor whose view is valid but carries no info. *)
Theorem SimulateLidar_undefined_iff (E : Engine) (DeltaTime : F) (s : Sensor) (Points : nat) :
  length (LaserAngles s) = Channels (Description s) ->
  PointsToScanWithOneLaser (Description s) DeltaTime = Some Points ->
  (0 < Points)%nat ->
  let cur := ToDegrees (GetHorizontalAngle (LidarRawData s)) in
  let stride :=
    fdiv (fmul (fmul (RotationFrequency (Description s)) (of_Z 360)) DeltaTime)
         (of_uint32 Points) in
  (SimulateLidar E DeltaTime s = Undefined <->
   exists c p hit,
     (c < Channels (Description s))%nat /\ (p < Points)%nat /\
     RayOutcome E s cur stride c p = Some hit /\ null_info_hit E hit = true) /\
  (forall w, SimulateLidar E DeltaTime s <> CheckFailed w).
Proof.
  intros Hlen Hb HP cur stride.
  rewrite (SimulateLidar_unfold E DeltaTime s Points Hb HP Hlen).
  fold cur. fold stride.
  set (hits := map (ExpectedHits E s cur stride Points) (seq 0 (Channels (Description s)))).
  pose proof (SaveChannel_cases E (GetTransform E) (concat hits)
                (ResetSerPoints (map (@length _) hits) (LidarRawData s))) as Hsave.
  assert (Hex : existsb (null_info_hit E) (concat hits) = true <->
                exists c p hit,
                  (c < Channels (Description s))%nat /\ (p < Points)%nat /\
                  RayOutcome E s cur stride c p = Some hit /\ null_info_hit E hit = true).
  { rewrite existsb_exists. split.
    - intros (hit & Hin & Hnull). apply in_concat in Hin.
      destruct Hin as (row & Hrow & Hin). unfold hits in Hrow.
      apply in_map_iff in Hrow. destruct Hrow as (c & <- & Hc).
      unfold ExpectedHits in Hin. apply in_flat_map in Hin.
      destruct Hin as (p & Hp & Hin). apply in_seq in Hc, Hp.
      destruct (RayOutcome E s cur stride c p) as [hit'|] eqn:Hout; [|contradiction].
      destruct Hin as [<-|[]]. exists c, p, hit'. repeat split; auto; lia.
    - intros (c & p & hit & Hc & Hp & Hout & Hnull). exists hit. split; [|exact Hnull].
      apply in_concat. exists (ExpectedHits E s cur stride Points c). split.
      + unfold hits. apply in_map. apply in_seq. lia.
      + unfold ExpectedHits. apply in_flat_map. exists p. split; [apply in_seq; lia|].
        rewrite Hout. now left. }
  destruct (existsb (null_info_hit E) (concat hits)) eqn:Hnull.
  - rewrite Hsave. cbn [bind]. split.
    + split; [intros _; now apply Hex|reflexivity].
    + intros w. discriminate.
  - destruct Hsave as (dets & _ & ->). cbn [bind]. split.
    + split; [discriminate|]. intros Hbad. apply Hex in Hbad. discriminate.
    + intros w. discriminate.
Qed.

(** *** Underfilled ticks and the sweep *)

Lemma sweep_after_casting (d : FLidarDescription F) (steps : list (Engine * F)) (stored : F) :
  sweep_after d
    (map snd (filter (fun step : Engine * F =>
                        match PointsToScanWithOneLaser d (snd step) with
                        | Some (S _) => true
                        | _ => false
                        end) steps)) stored =
  sweep_after d (map snd steps) stored.
Proof.
  revert stored. induction steps as [|[E dt] steps IH]; intros stored; [reflexivity|].
  cbn [filter map snd sweep_after].
  destruct (PointsToScanWithOneLaser d dt) as [[|P]|] eqn:Hb.
  - apply IH.
  - cbn [map snd sweep_after]. rewrite Hb. apply IH.
  - apply IH.
Qed.

(** X12. Any sequence of ticks with defined ray budgets, on a configured
    sensor and with well-formed registries, returns, and so does the
    sequence without its underfilled ticks; both leave the same sweep
    angle, which is obtained from the stored angle by the update of
    [SimulateLidar] for the ticks that cast rays, in order: an underfilled
    tick does not move the sweep, whatever its [DeltaTime]. *)
Theorem sweep_ignores_underfilled_ticks (steps : list (Engine * F)) (s : Sensor) :
  configured s ->
  Forall (fun step : Engine * F =>
            registry_ok (fst step) /\
            PointsToScanWithOneLaser (Description s) (snd step) <> None) steps ->
  let casts := fun step : Engine * F =>
    match PointsToScanWithOneLaser (Description s) (snd step) with
    | Some (S _) => true
    | _ => false
    end in
  exists s1 trace1 s2 trace2,
    Ticks steps s = Ok (s1, trace1) /\
    Ticks (filter casts steps) s = Ok (s2, trace2) /\
    GetHorizontalAngle (LidarRawData s1) = GetHorizontalAngle (LidarRawData s2) /\
    GetHorizontalAngle (LidarRawData s1) =
    sweep_after (Description s) (map snd steps) (GetHorizontalAngle (LidarRawData s)).
Proof.
  intros Hconf Hall casts.
  destruct (Ticks_sweep _ _ steps s Hconf Hall) as (s1 & tr1 & Hrun1 & _ & _ & Ha1).
  destruct (Ticks_sweep _ _ (filter casts steps) s Hconf) as (s2 & tr2 & Hrun2 & _ & _ & Ha2).
  { rewrite Forall_forall in Hall |- *. intros step Hin.
    apply filter_In in Hin. now apply Hall. }
  exists s1, tr1, s2, tr2. split; [exact Hrun1|]. split; [exact Hrun2|].
  split; [|exact Ha1].
  rewrite Ha1, Ha2. symmetry. apply sweep_after_casting.
Qed.
End StepOutcome.

Section TagOrigin.

Context {F : Type} `{FO : FloatOps F}.
Variables FTransform FRotator : Type.

(** X8. A detection carries an object index other than 0, or a tag other
    than NONE, only for a hit on an actor with a valid view and its info:
    the index is then the [UId] of the actor, and a tag other than NONE is
    the only semantic label of the actor. *)
Theorem ComputeRawDetection_tag_origin (E : Engine F FTransform FRotator)
    (hit : FHitResult F) (T : FTransform) (det : FRawDetection F) :
  ComputeRawDetection E hit T = Ok det ->
  object_idx det <> 0%nat \/ object_tag det <> LabelNone ->
  exists actor info,
    Actor hit = Some actor /\
    IsValid (RegistryFind E actor) = true /\
    GetActorInfo (RegistryFind E actor) = Some info /\
    object_idx det = UId info /\
    (object_tag det <> LabelNone -> SemanticTags info = [object_tag det]).
Proof.
  unfold ComputeRawDetection.
  destruct (Actor hit) as [a|].
  - destruct (IsValid (RegistryFind E a)) eqn:Hvalid.
    + destruct (GetActorInfo (RegistryFind E a)) as [info|] eqn:Hinfo; [|discriminate].
      cbn [deref bind].
      destruct (length (SemanticTags info) =? 1)%nat eqn:Hone;
        intros Heq _; injection Heq as <-; exists a, info; cbn; repeat split; auto.
      * intros _. apply Nat.eqb_eq in Hone.
        destruct (SemanticTags info) as [|l [|l' rest]]; try discriminate. reflexivity.
      * intros Hne. now contradiction Hne.
    + intros Heq [Hi|Ht]; injection Heq as <-; cbn in *; contradiction.
  - intros Heq [Hi|Ht]; injection Heq as <-; cbn in *; contradiction.
Qed.
End TagOrigin.

(** ** More on the parallel phase *)

Section Capacity.

Import Concurrent.
Context {Hit : Type}.



Lemma finished_no_holder (tasks : list (PC Hit)) :
  forallb is_finished tasks = true ->
  length (filter in_critical tasks) = 0%nat.
Proof.
  induction tasks as [|pc tasks IH]; intros Hfin; [reflexivity|].
  simpl in Hfin. apply andb_prop in Hfin. destruct Hfin as [Hpc Hfin].
  destruct pc; try discriminate. simpl. auto.
Qed.

(** X14. When all ray tasks have finished, the mutex of every channel is
    free. *)
Theorem finished_phase_releases_locks (outcome : nat -> nat -> option Hit)
    (ChannelCount Points : nat) (sys : System Hit) :
  reachable outcome ChannelCount Points sys ->
  terminal sys = true ->
  forall c ch, nth_error sys c = Some ch -> Mutex ch = false.
Proof.
  intros Hreach Hterm c ch Hc.
  apply reachable_ok in Hreach. destruct Hreach as [_ Hok].
  pose proof (ok_mutex (Hok c ch Hc)) as Hmx.
  unfold terminal in Hterm. rewrite forallb_forall in Hterm.
  pose proof (Hterm ch (nth_error_In _ _ Hc)) as Hfin.
  unfold holders in Hmx. rewrite (finished_no_holder _ Hfin) in Hmx.
  destruct (Mutex ch); [discriminate|reflexivity].
Qed.

(** *** The in-order run *)

Lemma run_schedule_app (outcome : nat -> nat -> option Hit) (a b : list (nat * nat))
    (sys : System Hit) :
  run_schedule outcome (a ++ b) sys =
  match run_schedule outcome a sys with
  | Some sys' => run_schedule outcome b sys'
  | None => None
  end.
Proof.
  revert sys. induction a as [|[c p] a IH]; intros sys; [reflexivity|].
  cbn [app run_schedule]. destruct (step_system outcome c p sys); auto.
Qed.

Lemma step_system_at (outcome : nat -> nat -> option Hit) (p : nat)
    (pre post : System Hit) (m : bool) (v : list Hit) (done rest : list (PC Hit))
    (pc : PC Hit) :
  step_system outcome (length pre) p
    (pre ++ {| Mutex := m; Hits := v; Tasks := done ++ pc :: rest |} :: post) =
  match nth_error (done ++ pc :: rest) p with
  | Some pc0 =>
      match step_pc (outcome (length pre) p)
              {| Mutex := m; Hits := v; Tasks := done ++ pc :: rest |} pc0 with
      | Some (m', v', pc') =>
          Some (pre ++ {| Mutex := m'; Hits := v';
                          Tasks := set_nth p pc' (done ++ pc :: rest) |} :: post)
      | None => None
      end
  | None => None
  end.
Proof.
  unfold step_system, step_task.
  rewrite nth_error_app2, Nat.sub_diag by lia. cbn [nth_error Tasks].
  destruct (nth_error (done ++ pc :: rest) p) as [pc0|]; [|reflexivity].
  destruct (step_pc _ _ pc0) as [[[m' v'] pc']|]; [|reflexivity].
  now rewrite set_nth_app.
Qed.

Lemma step_own_task (outcome : nat -> nat -> option Hit)
    (pre post : System Hit) (m : bool) (v : list Hit) (done rest : list (PC Hit))
    (pc : PC Hit) :
  step_system outcome (length pre) (length done)
    (pre ++ {| Mutex := m; Hits := v; Tasks := done ++ pc :: rest |} :: post) =
  match step_pc (outcome (length pre) (length done))
          {| Mutex := m; Hits := v; Tasks := done ++ pc :: rest |} pc with
  | Some (m', v', pc') =>
      Some (pre ++ {| Mutex := m'; Hits := v'; Tasks := done ++ pc' :: rest |} :: post)
  | None => None
  end.
Proof.
  rewrite step_system_at.
  rewrite nth_error_app2, Nat.sub_diag by lia. cbn [nth_error].
  destruct (step_pc _ _ pc) as [[[m' v'] pc']|]; [|reflexivity].
  now rewrite set_nth_app.
Qed.

Lemma run_one_task (outcome : nat -> nat -> option Hit)
    (pre post : System Hit) (v : list Hit) (done rest : list (PC Hit)) :
  let c := length pre in
  let p := length done in
  run_schedule outcome (task_steps (outcome c p) c p)
    (pre ++ {| Mutex := false; Hits := v; Tasks := done ++ AtShoot :: rest |} :: post) =
  Some (pre ++ {| Mutex := false; Hits := v ++ option_list (outcome c p);
                  Tasks := done ++ Finished (outcome c p) :: rest |} :: post).
Proof.
  intros c p. unfold task_steps.
  destruct (outcome c p) as [h|] eqn:Hout.
  - cbn [repeat run_schedule]. unfold c, p.
    rewrite step_own_task. cbn [step_pc Mutex Hits]. fold c p. rewrite Hout. unfold c, p.
    rewrite step_own_task. cbn [step_pc Mutex Hits].
    rewrite step_own_task. cbn [step_pc Mutex Hits].
    rewrite step_own_task. cbn [step_pc Mutex Hits]. rewrite firstn_all.
    rewrite step_own_task. cbn [step_pc Mutex Hits]. reflexivity.
  - cbn [run_schedule]. unfold c, p.
    rewrite step_own_task. cbn [step_pc Mutex Hits]. fold c p. rewrite Hout.
    cbn [option_list]. now rewrite app_nil_r.
Qed.

Lemma run_tasks_from (outcome : nat -> nat -> option Hit) (n : nat)
    (pre post : System Hit) (v : list Hit) (done : list (PC Hit)) :
  let c := length pre in
  run_schedule outcome
    (flat_map (fun p => task_steps (outcome c p) c p) (seq (length done) n))
    (pre ++ {| Mutex := false; Hits := v; Tasks := done ++ repeat AtShoot n |} :: post) =
  Some (pre ++ {| Mutex := false;
                  Hits := v ++ flat_map (fun p => option_list (outcome c p))
                                 (seq (length done) n);
                  Tasks := done ++ map (fun p => Finished (outcome c p))
                                     (seq (length done) n) |} :: post).
Proof.
  intros c. revert v done. induction n as [|n IH]; intros v done.
  - cbn. now rewrite !app_nil_r.
  - cbn [seq flat_map repeat map]. rewrite run_schedule_app.
    pose proof (run_one_task outcome pre post v done (repeat AtShoot n)) as Hone.
    cbn zeta in Hone. fold c in Hone. rewrite Hone.
    replace (done ++ Finished (outcome c (length done)) :: repeat AtShoot n)
      with ((done ++ [Finished (outcome c (length done))]) ++ repeat AtShoot n)
      by now rewrite <- app_assoc.
    replace (S (length done)) with (length (done ++ [Finished (outcome c (length done))]))
      by (rewrite length_app; simpl; lia).
    rewrite IH. rewrite !length_app. cbn [length].
    replace (length done + 1)%nat with (S (length done)) by lia.
    now rewrite <- !app_assoc.
Qed.

Lemma run_channels_from (outcome : nat -> nat -> option Hit) (Points n : nat)
    (pre : System Hit) :
  run_schedule outcome
    (flat_map (fun c => flat_map (fun p => task_steps (outcome c p) c p) (seq 0 Points))
              (seq (length pre) n))
    (pre ++ repeat (initial_channel Hit Points) n) =
  Some (pre ++ map (fun c => finished_channel (outcome c) Points) (seq (length pre) n)).
Proof.
  revert pre. induction n as [|n IH]; intros pre.
  - cbn. reflexivity.
  - cbn [seq flat_map repeat map]. rewrite run_schedule_app.
    pose proof (run_tasks_from outcome Points pre (repeat (initial_channel Hit Points) n)
                  [] []) as Hch.
    cbn zeta in Hch. cbn [app length] in Hch.
    unfold initial_channel at 1. rewrite Hch.
    fold (finished_channel (outcome (length pre)) Points).
    replace (pre ++ finished_channel (outcome (length pre)) Points ::
               repeat (initial_channel Hit Points) n)
      with ((pre ++ [finished_channel (outcome (length pre)) Points]) ++
              repeat (initial_channel Hit Points) n)
      by now rewrite <- app_assoc.
    replace (S (length pre))
      with (length (pre ++ [finished_channel (outcome (length pre)) Points]))
      by (rewrite length_app; simpl; lia).
    rewrite IH. rewrite !length_app. cbn [length].
    replace (length pre + 1)%nat with (S (length pre)) by lia.
    now rewrite <- !app_assoc.
Qed.

Lemma sequential_run (outcome : nat -> nat -> option Hit) (ChannelCount Points : nat) :
  run_schedule outcome (sequential_schedule outcome ChannelCount Points)
    (initial Hit ChannelCount Points) =
  Some (map (fun c => finished_channel (outcome c) Points) (seq 0 ChannelCount)).
Proof.
  exact (run_channels_from outcome Points ChannelCount []).
Qed.

End Capacity.

Section InOrderRun.

Import Concurrent.
Context {F : Type} `{FO : FloatOps F}.
Variables FTransform FRotator : Type.

(** X15. Running the ray tasks one after another in index order is one
    of the interleavings; it ends with all tasks finished and with the
    collections that the in-order run of the two [ParallelFor] loops
    records.  The channels are channels of the sensor, as in
    [SimulateLidar]. *)
Theorem in_order_run_is_an_interleaving (E : Engine F FTransform FRotator)
    (s : ARayCastRawLidar F) (cur stride : F) (ChannelCount Points : nat) :
  let outcome := RayOutcome E s cur stride in
  (ChannelCount <= Channels (Description s))%nat ->
  exists sys cast,
    run_schedule outcome (sequential_schedule outcome ChannelCount Points)
      (initial _ ChannelCount Points) = Some sys /\
    reachable outcome ChannelCount Points sys /\
    terminal sys = true /\
    ParallelFor ChannelCount (ChannelTask E cur stride Points)
      (ResetRecordedHits ChannelCount Points s, []) = Ok cast /\
    map (@Hits _) sys = RecordedHits (fst cast).
Proof.
  intros outcome Hch.
  pose proof (sequential_run outcome ChannelCount Points) as Hrun.
  eexists. eexists. split; [exact Hrun|]. split; [|split; [|split]].
  - eapply run_schedule_reachable; [apply reach_initial|exact Hrun].
  - unfold terminal. apply forallb_forall. intros ch Hch'.
    apply in_map_iff in Hch'. destruct Hch' as (c & <- & _).
    cbn [finished_channel Tasks]. apply forallb_forall. intros pc Hpc.
    apply in_map_iff in Hpc. destruct Hpc as (p & <- & _). reflexivity.
  - apply cast_phase. exact Hch.
  - cbn [fst with_hits RecordedHits]. rewrite map_map. reflexivity.
Qed.

End InOrderRun.

(** ** Runs of the further properties *)

Section FurtherRuns.

Import Binary32 Scene Cases.

Lemma Set_then_ticks_fail_no_check_witness :
  match Ticks [(wall_engine, eighth); (empty_engine, short_tick)]
          (after_set (description 2 (of_int 1))) with
  | Ok (s', _) =>
      Description s' = description 2 (of_int 1) /\
      LaserAngles s' = LaserAngles (after_set (description 2 (of_int 1)))
  | CheckFailed _ => False
  | Undefined => True
  end.
Proof.
  pose proof (Set_then_ticks_fail_no_check Pose Rot (description 2 (of_int 1)) fresh
                (after_set (description 2 (of_int 1)))
                [(wall_engine, eighth); (empty_engine, short_tick)]
                Set_after_set) as Hticks.
  exact Hticks.
Defined.

Lemma SimulateLidar_discards_previous_step_witness :
  SimulateLidar wall_engine eighth stale_sensor =
  SimulateLidar wall_engine eighth (after_set (description 2 (of_int 1))).
Proof.
  apply (SimulateLidar_discards_previous_step Pose Rot wall_engine eighth
           stale_sensor (after_set (description 2 (of_int 1))) 2);
    [reflexivity|reflexivity|reflexivity|exact budget_of_eighth|lia].
Defined.

Lemma SimulateLidar_recorded_hits_witness :
  exists s' trace,
    SimulateLidar upper_veto_engine eighth (after_set (description 2 (of_int 1))) =
      Ok (s', trace) /\
    length (RecordedHits s') = 2%nat.
Proof.
  destruct (SimulateLidar upper_veto_engine eighth
              (after_set (description 2 (of_int 1)))) as [[s' trace]| |] eqn:Hok.
  - exists s', trace. split; [reflexivity|].
    exact (proj1 (SimulateLidar_recorded_hits Pose Rot upper_veto_engine
                    eighth (after_set (description 2 (of_int 1))) s' 2 trace
                    budget_of_eighth ltac:(lia) Hok)).
  - vm_compute in Hok. discriminate Hok.
  - vm_compute in Hok. discriminate Hok.
Defined.

Lemma SimulateLidar_buffer_matches_hits_witness :
  exists s' trace,
    SimulateLidar wall_engine eighth (after_set (description 2 (of_int 1))) =
      Ok (s', trace) /\
    PointCounts (LidarRawData s') = map (@length _) (RecordedHits s').
Proof.
  destruct (SimulateLidar wall_engine eighth
              (after_set (description 2 (of_int 1)))) as [[s' trace]| |] eqn:Hok.
  - exists s', trace. split; [reflexivity|].
    exact (proj1 (SimulateLidar_buffer_matches_hits Pose Rot wall_engine
                    eighth (after_set (description 2 (of_int 1))) s' 2 trace
                    budget_of_eighth ltac:(lia) Hok)).
  - vm_compute in Hok. discriminate Hok.
  - vm_compute in Hok. discriminate Hok.
Defined.

Lemma SimulateLidar_ray_count_witness :
  exists s' trace,
    SimulateLidar wall_engine eighth (after_set (description 2 (of_int 1))) =
      Ok (s', trace) /\
    length trace = 4%nat.
Proof.
  destruct (SimulateLidar wall_engine eighth
              (after_set (description 2 (of_int 1)))) as [[s' trace]| |] eqn:Hok.
  - exists s', trace. split; [reflexivity|].
    destruct (SimulateLidar_ray_count Pose Rot wall_engine
                eighth (after_set (description 2 (of_int 1))) s' 2 trace
                budget_of_eighth ltac:(lia) Hok) as (_ & _ & Hall).
    apply Hall. reflexivity.
  - vm_compute in Hok. discriminate Hok.
  - vm_compute in Hok. discriminate Hok.
Defined.

Lemma SimulateLidar_undefined_iff_witness :
  SimulateLidar broken_engine eighth (after_set (description 2 (of_int 1))) = Undefined.
Proof.
  apply (proj1 (SimulateLidar_undefined_iff Pose Rot broken_engine eighth
                  (after_set (description 2 (of_int 1))) 2
                  eq_refl budget_of_eighth ltac:(lia))).
  exists 0%nat, 0%nat, wall_hit. repeat split; try reflexivity; cbn; lia.
Defined.

Lemma ComputeRawDetection_tag_origin_witness :
  exists det info,
    ComputeRawDetection wall_engine wall_hit origin = Ok det /\
    GetActorInfo (RegistryFind wall_engine 7%nat) = Some info /\
    SemanticTags info = [object_tag det].
Proof.
  destruct (ComputeRawDetection wall_engine wall_hit origin) as [det| |] eqn:Hok;
    [|vm_compute in Hok; discriminate Hok|vm_compute in Hok; discriminate Hok].
  assert (Htag3 : object_tag det <> LabelNone).
  { vm_compute in Hok. injection Hok as <-. discriminate. }
  destruct (ComputeRawDetection_tag_origin Pose Rot wall_engine wall_hit origin
              det Hok (or_intror Htag3))
    as (actor & info & Hactor & _ & Hinfo & _ & Htag).
  injection Hactor as <-. exists det, info. split; [reflexivity|].
  split; [exact Hinfo|exact (Htag Htag3)].
Defined.

Lemma sweep_ignores_underfilled_ticks_witness :
  exists s1 trace1 s2 trace2,
    Ticks mixed_steps (after_set (description 2 (of_int 1))) = Ok (s1, trace1) /\
    Ticks [(wall_engine, eighth); (upper_veto_engine, of_scaled 1 (-2))]
      (after_set (description 2 (of_int 1))) = Ok (s2, trace2) /\
    SweepAngle s1 = SweepAngle s2 /\
    SweepAngle s1 = of_int 135.
Proof.
  destruct (sweep_ignores_underfilled_ticks Pose Rot mixed_steps
              (after_set (description 2 (of_int 1)))
              (proj1 (after_set_configured (description 2 (of_int 1)) ltac:(discriminate))))
    as (s1 & tr1 & s2 & tr2 & Hrun1 & Hrun2 & Hsame & Hangle).
  - repeat constructor; try apply scene_registry_ok; vm_compute; discriminate.
  - exists s1, tr1, s2, tr2. split; [exact Hrun1|]. split; [exact Hrun2|].
    unfold SweepAngle. rewrite <- Hsame. split; [reflexivity|].
    rewrite Hangle. vm_compute. reflexivity.
Defined.

End FurtherRuns.


Lemma finished_phase_releases_locks_witness :
  let outcome := RayOutcome Scene.wall_engine
                   (Scene.after_set (Scene.description 2 (Binary32.of_int 1)))
                   (Binary32.of_int 0) (Binary32.decimal 45 2) in
  exists finished,
    Concurrent.run_schedule outcome Concurrent.interleaved (Concurrent.initial _ 2 2) =
      Some finished /\
    forall c ch, nth_error finished c = Some ch -> Concurrent.Mutex ch = false.
Proof.
  intros outcome.
  destruct (Concurrent.run_schedule outcome Concurrent.interleaved (Concurrent.initial _ 2 2))
    as [finished|] eqn:Hrun; [|vm_compute in Hrun; discriminate Hrun].
  exists finished. split; [reflexivity|].
  apply (finished_phase_releases_locks outcome 2 2 finished
           (run_schedule_reachable outcome 2 2 Concurrent.interleaved _ finished
              (Concurrent.reach_initial outcome 2 2) Hrun)).
  vm_compute in Hrun. injection Hrun as <-. reflexivity.
Defined.

Lemma in_order_run_is_an_interleaving_witness :
  let sensor := Scene.after_set (Scene.description 2 (Binary32.of_int 1)) in
  let outcome :=
    RayOutcome Scene.wall_engine sensor (Binary32.of_int 0) (Binary32.decimal 45 2) in
  exists sys cast,
    Concurrent.run_schedule outcome (sequential_schedule outcome 2 2)
      (Concurrent.initial _ 2 2) = Some sys /\
    ParallelFor 2
      (ChannelTask Scene.wall_engine (Binary32.of_int 0) (Binary32.decimal 45 2) 2)
      (ResetRecordedHits 2 2 sensor, []) = Ok cast /\
    map (@Concurrent.Hits _) sys = RecordedHits (fst cast).
Proof.
  intros sensor outcome.
  destruct (in_order_run_is_an_interleaving Scene.Pose Scene.Rot Scene.wall_engine sensor
              (Binary32.of_int 0) (Binary32.decimal 45 2) 2 2 ltac:(vm_compute; lia))
    as (sys & cast & Hrun & _ & _ & Hcast & Hsame).
  exists sys, cast. split; [exact Hrun|]. split; [exact Hcast|exact Hsame].
Defined.
